(** * Gmail Auto-Responder: the list and reply routes and the inbox page

    A shallow embedding of

    - [web/app/api/gmail/list/route.ts]  ([parseEmailAddress], [headerValue], [GET]),
    - the reply route                    ([encodeEmail], [POST]),
    - [web/app/page.tsx]                 ([QUICK_REPLIES], [defaultReply],
                                          [smartReply], [handleSendReply],
                                          [handleAutoAnswerAll], [handleRefresh]),

    followed by the properties of the reply-composition and
    inbox-synchronisation workflow.

    Conventions.
    - A JavaScript string is its sequence of UTF-16 code units ([jsstring]).
    - [string | null | undefined] is [option jsstring]; [None] stands for both
      [null] and [undefined], which the code never tells apart (it only uses
      [!x], [?.] and [??] on such values).
    - A call that leaves the process (the mailbox provider on the server, [fetch]
      in the browser) is an operation of a free monad; its answer is supplied
      by a handler, so every statement holds whatever the remote side does.
    - [console.error] is not modelled. *)

From Stdlib Require Import String Ascii.
From stdpp Require Import gmap list fin_maps.

Local Open Scope N_scope.

(** ** JavaScript strings *)

Module Js.

Abbreviation jsstring := (list N).

(** An ASCII literal of the source as code units. *)
Definition lit (s : string) : jsstring :=
  List.map N_of_ascii (list_ascii_of_string s).

Arguments lit : simpl never.

(** The quote character and the line feed, as strings of one code unit. *)
Definition dquote : jsstring := [34].
Definition nl : jsstring := [10].

(** [!x] is false for a string exactly when it is present and non-empty. *)
Definition truthy (x : option jsstring) : bool :=
  match x with
  | Some (_ :: _) => true
  | _ => false
  end.

(** [x ?? y] *)
Definition nullish {A} (x : option A) (y : A) : A :=
  match x with
  | Some v => v
  | None => y
  end.

(** ECMAScript LineTerminator: LF, CR, LS, PS. A [.] of a regular expression
    without the [s] flag matches every code unit but these. *)
Definition is_line_terminator (c : N) : bool :=
  (c =? 10) || (c =? 13) || (c =? 8232) || (c =? 8233).

(** ECMAScript WhiteSpace or LineTerminator: what [\s] matches and what
    [String.prototype.trim] removes. *)
Definition is_space (c : N) : bool :=
  (c =? 9) || (c =? 11) || (c =? 12) || (c =? 32) || (c =? 160)
  || (c =? 5760) || ((8192 <=? c) && (c <=? 8202))
  || (c =? 8239) || (c =? 8287) || (c =? 12288) || (c =? 65279)
  || is_line_terminator c.

Fixpoint drop_while (p : N → bool) (s : jsstring) : jsstring :=
  match s with
  | [] => []
  | c :: s' => if p c then drop_while p s' else s
  end.

Definition trimStart (s : jsstring) : jsstring := drop_while is_space s.
Definition trimEnd (s : jsstring) : jsstring := rev (drop_while is_space (rev s)).

(** [s.trim()] *)
Definition trim (s : jsstring) : jsstring := trimEnd (trimStart s).

(** [s.startsWith(p)] *)
Fixpoint startsWith (p s : jsstring) : bool :=
  match p, s with
  | [], _ => true
  | _ :: _, [] => false
  | a :: p', b :: s' => (a =? b) && startsWith p' s'
  end.

(** [s.replace(/c/g, '')] for a single code unit [c]: every [c] is removed. *)
Definition remove_all (c : N) (s : jsstring) : jsstring :=
  List.filter (λ x, negb (x =? c)) s.

(** [parts.join(sep)] *)
Fixpoint join (sep : jsstring) (parts : list jsstring) : jsstring :=
  match parts with
  | [] => []
  | [p] => p
  | p :: rest => p ++ sep ++ join sep rest
  end.

End Js.
Import Js.

(** ** Calls that leave the process

    [Free Op Ar A] is a computation that returns an [A] and may perform
    operations [o : Op] on the way; the answer to [o] has type [Ar o]. *)

Inductive Free (Op : Type) (Ar : Op → Type) (A : Type) : Type :=
| Ret (a : A)
| Do (o : Op) (k : Ar o → Free Op Ar A).

Arguments Ret {Op Ar A} a.
Arguments Do {Op Ar A} o k.

Fixpoint bind {Op Ar A B} (m : Free Op Ar A) (f : A → Free Op Ar B) : Free Op Ar B :=
  match m with
  | Ret a => f a
  | Do o k => Do o (λ x, bind (k x) f)
  end.

(** [await op(...)] *)
Definition call {Op Ar} (o : Op) : Free Op Ar (Ar o) := Do o Ret.

Declare Scope free_scope.
Delimit Scope free_scope with free.
Notation "'let*' x ':=' m 'in' k" := (bind m (λ x, k))
  (at level 10, x name, m at level 100, k at level 200, only parsing) : free_scope.
Local Open Scope free_scope.

(** A promise settles: it resolves with a value or rejects. What it rejects
    with is kept only where the code reads it. *)
Inductive Outcome (E A : Type) : Type :=
| Resolved (a : A)
| Rejected (e : E).

Arguments Resolved {E A} a.
Arguments Rejected {E A} e.

(** Running a computation against the outside world: [h] answers every
    operation from a state [W] of the remote side. The operations performed
    are collected in order, each with the answer it got. *)
Section Run.
Context {Op : Type} {Ar : Op → Type} {W : Type}.
Variable h : ∀ o : Op, W → Ar o * W.

Fixpoint run {A} (m : Free Op Ar A) (w : W) : A * list (sigT Ar) * W :=
  match m with
  | Ret a => (a, [], w)
  | Do o k =>
      let '(x, w1) := h o w in
      let '(a, evs, w2) := run (k x) w1 in
      (a, existT o x :: evs, w2)
  end.

Definition result {A} (m : Free Op Ar A) (w : W) : A := (run m w).1.1.
Definition events {A} (m : Free Op Ar A) (w : W) : list (sigT Ar) := (run m w).1.2.
Definition performed {A} (m : Free Op Ar A) (w : W) : list Op :=
  List.map (λ ev, projT1 ev) (events m w).
Definition world_after {A} (m : Free Op Ar A) (w : W) : W := (run m w).2.
End Run.

(** [Promise.all(xs.map(f))]: every [f x] is started, in the order of [xs];
    the whole rejects when one of them does, and otherwise resolves with the
    values in the order of [xs]. Which rejection wins is a matter of timing;
    the routes only log it, so the first in list order stands for it. *)
Fixpoint promise_all {Op Ar E A} (ps : list (Free Op Ar (Outcome E A)))
  : Free Op Ar (Outcome E (list A)) :=
  match ps with
  | [] => Ret (Resolved [])
  | p :: ps' =>
      let* r := p in
      let* rs := promise_all ps' in
      Ret (match r, rs with
           | Resolved a, Resolved l => Resolved (a :: l)
           | Rejected e, _ => Rejected e
           | _, Rejected e => Rejected e
           end)
  end.

(** ** The session and the HTTP responses of the two routes *)

(** What [getServerSession(authOptions)] resolves with, when not [null]. *)
Record Session := {
  accessToken : option jsstring;
  refreshToken : option jsstring;
}.

(** [!session?.accessToken] is false. *)
Definition authenticated (session : option Session) : bool :=
  match session with
  | Some s => truthy (accessToken s)
  | None => false
  end.

(** The record the list route returns for an unread message, and the
    [GmailMessage] of the page. *)
Record GmailMessage := {
  id : jsstring;
  threadId : option jsstring;
  subject : jsstring;
  from : option jsstring;
  fromName : option jsstring;
  fromAddress : option jsstring;
  snippet : jsstring;
  internalDate : option jsstring;
  date : option jsstring;
  messageIdHeader : option jsstring;
}.

(** The JSON bodies the routes produce. *)
Inductive Body :=
| MessagesBody (messages : list GmailMessage)   (* { messages } *)
| OkBody                                        (* { ok: true } *)
| ErrorBody (error : jsstring).                 (* { error } *)

(** [NextResponse.json(body, { status })]; the status is 200 when not given. *)
Record Response := {
  status : N;
  body : Body;
}.

Definition json (b : Body) : Response := {| status := 200; body := b |}.
Definition json_status (b : Body) (st : N) : Response := {| status := st; body := b |}.

Definition unauthorized : Response := json_status (ErrorBody (lit "Unauthorized")) 401.

(** ** The mailbox provider, as the routes use it *)

Module Gmail.

(** An entry of [data.messages] of the unread query. *)
Record MessageRef := {
  ref_id : option jsstring;
  ref_threadId : option jsstring;
}.

Record MessageHeader := {
  name : option jsstring;
  value : option jsstring;
}.

Record Payload := {
  headers : option (list MessageHeader);
}.

(** [detail.data] of a message lookup. *)
Record Detail := {
  payload : option Payload;
  d_threadId : option jsstring;
  d_snippet : option jsstring;
  d_internalDate : option jsstring;
}.

Inductive Op :=
| CreateClient (accessToken : jsstring) (refreshToken : option jsstring)
| MessagesList (labelIds : list jsstring) (q : jsstring) (maxResults : N)
| MessagesGet (id : jsstring) (format : jsstring) (metadataHeaders : list jsstring)
| MessagesSend (raw : jsstring) (threadId : jsstring)
| MessagesModify (id : jsstring) (removeLabelIds addLabelIds : list jsstring).

(** The answer to each call; [Rejected tt] is a thrown exception. The unread
    query resolves with [data.messages], which may be absent. *)
Definition Ar (o : Op) : Type :=
  match o with
  | CreateClient _ _ => Outcome unit unit
  | MessagesList _ _ _ => Outcome unit (option (list MessageRef))
  | MessagesGet _ _ _ => Outcome unit Detail
  | MessagesSend _ _ => Outcome unit unit
  | MessagesModify _ _ _ => Outcome unit unit
  end.

Abbreviation M := (Free Op Ar).

Definition is_rejected {A} (r : Outcome unit A) : bool :=
  match r with
  | Rejected _ => true
  | Resolved _ => false
  end.

(** The call of this event threw. *)
Definition rejected (ev : sigT Ar) : bool :=
  match ev with
  | existT (CreateClient _ _) a => is_rejected a
  | existT (MessagesList _ _ _) a => is_rejected a
  | existT (MessagesGet _ _ _) a => is_rejected a
  | existT (MessagesSend _ _) a => is_rejected a
  | existT (MessagesModify _ _ _) a => is_rejected a
  end.

(** The event is a message submission that the provider accepted. *)
Definition send_resolved (ev : sigT Ar) : bool :=
  match ev with
  | existT (MessagesSend _ _) a => negb (is_rejected a)
  | _ => false
  end.

(** The event is a label mutation that threw. *)
Definition modify_rejected (ev : sigT Ar) : bool :=
  match ev with
  | existT (MessagesModify _ _ _) a => is_rejected a
  | _ => false
  end.

(** What the unread query of this event resolved with, if it is one. *)
Definition listed (ev : sigT Ar) : option (list MessageRef) :=
  match ev with
  | existT (MessagesList _ _ _) (Resolved data_messages) => Some (nullish data_messages [])
  | _ => None
  end.

End Gmail.

(** ** [web/app/api/gmail/list/route.ts] *)

Module ListRoute.
Import Gmail.

Definition METADATA_HEADERS : list jsstring :=
  [lit "Subject"; lit "From"; lit "Date"; lit "Message-ID"].

(** The match of [/^(.*?)(?:\s*<(.+?)>)?$/] against a string, as the
    backtracking matcher finds it.

    [closes s]: [>$] matches at [s], that is, [s] is exactly [>]. *)
Definition closes (s : jsstring) : bool :=
  match s with
  | [c] => c =? 62
  | _ => false
  end.

(** [angle_body acc s] is [(.+?)>$] at [s], with [acc] the code units the lazy
    group has taken so far (reversed): the group takes one more code unit,
    which must not be a line terminator, and stops as soon as [>$] matches. *)
Fixpoint angle_body (acc s : jsstring) : option jsstring :=
  match s with
  | [] => None
  | c :: s' =>
      if is_line_terminator c then None
      else if closes s' then Some (rev (c :: acc))
      else angle_body (c :: acc) s'
  end.

(** [\s*<(.+?)>$] at [s]: the greedy [\s*] takes every white space (giving some
    back cannot help, [<] is not white space), then [<], then the group. *)
Definition angle_part (s : jsstring) : option jsstring :=
  match drop_while is_space s with
  | c :: s' => if c =? 60 then angle_body [] s' else None
  | [] => None
  end.

(** [(.*?)] has taken [acc] (reversed) and [s] is left: the optional part is
    tried first; without it [$] needs [s] empty; failing both, the lazy group
    takes one more code unit, which must not be a line terminator. The result
    is [(match[1], match[2])]; [None] is a failed match. *)
Fixpoint sender_match_from (acc s : jsstring) : option (jsstring * option jsstring) :=
  match angle_part s with
  | Some addr => Some (rev acc, Some addr)
  | None =>
      match s with
      | [] => Some (rev acc, None)
      | c :: s' =>
          if is_line_terminator c then None
          else sender_match_from (c :: acc) s'
      end
  end.

Definition sender_match (s : jsstring) : option (jsstring * option jsstring) :=
  sender_match_from [] s.

Record Parsed := {
  p_name : option jsstring;
  p_address : option jsstring;
}.

Definition parseEmailAddress (headerValue : option jsstring) : Parsed :=
  if negb (truthy headerValue) then {| p_name := None; p_address := None |}
  else
    let hv := nullish headerValue [] in
    match sender_match hv with
    | None => {| p_name := None; p_address := Some hv |}
    | Some (m1, m2) =>
        let name := if truthy m2 then Some (trim (remove_all 34 m1)) else None in
        let address := nullish m2 m1 in
        {| p_name := if truthy name then name else None;
           p_address := Some (trim address) |}
    end.

(** [headers?.find((header) => header.name === key)?.value ?? null] *)
Definition headerValue (headers : option (list MessageHeader)) (key : jsstring)
  : option jsstring :=
  match headers with
  | None => None
  | Some hs =>
      match List.find (λ header, bool_decide (name header = Some key)) hs with
      | Some header => value header
      | None => None
      end
  end.

(** The body of the callback mapped over the entries, after the lookup has
    resolved with [detail]. *)
Definition enrich (id0 : jsstring) (threadId0 : option jsstring) (detail : Detail)
  : GmailMessage :=
  let headers := Some (nullish (match payload detail with
                                | Some p => headers p
                                | None => None
                                end) []) in
  let subject := nullish (headerValue headers (lit "Subject")) (lit "(no subject)") in
  let fromHeader := headerValue headers (lit "From") in
  let date := headerValue headers (lit "Date") in
  let messageIdHeader := headerValue headers (lit "Message-ID") in
  let parsed := parseEmailAddress fromHeader in
  {| id := id0;
     threadId := match threadId0 with
                 | Some t => Some t
                 | None => d_threadId detail
                 end;
     subject := subject;
     from := fromHeader;
     fromName := p_name parsed;
     fromAddress := p_address parsed;
     snippet := nullish (d_snippet detail) [];
     internalDate := d_internalDate detail;
     date := date;
     messageIdHeader := messageIdHeader |}.

(** [async ({ id, threadId }) => { if (!id) return null; ... }] *)
Definition lookup (entry : MessageRef) : M (Outcome unit (option GmailMessage)) :=
  if negb (truthy (ref_id entry)) then Ret (Resolved None)
  else
    let id0 := nullish (ref_id entry) [] in
    let* detail := call (MessagesGet id0 (lit "metadata") METADATA_HEADERS) in
    match detail return M (Outcome unit (option GmailMessage)) with
    | Rejected e => Ret (Rejected e)
    | Resolved d => Ret (Resolved (Some (enrich id0 (ref_threadId entry) d)))
    end.

(** [detailed.filter((message) => Boolean(message))] *)
Definition present (detailed : list (option GmailMessage)) : list GmailMessage :=
  omap (λ message, message) detailed.

Definition failed : Response :=
  json_status (ErrorBody (lit "Failed to load messages")) 500.

(** The [try] block; [Rejected] is control reaching [catch]. *)
Definition GET_try (s : Session) : M (Outcome unit Response) :=
  let* gmail := call (CreateClient (nullish (accessToken s) []) (refreshToken s)) in
  match gmail return M (Outcome unit Response) with
  | Rejected e => Ret (Rejected e)
  | Resolved _ =>
      let* listed := call (MessagesList [lit "INBOX"] (lit "is:unread") 15) in
      match listed return M (Outcome unit Response) with
      | Rejected e => Ret (Rejected e)
      | Resolved data_messages =>
          let messages := nullish data_messages [] in
          match messages with
          | [] => Ret (Resolved (json (MessagesBody [])))
          | _ =>
              let* detailed := promise_all (List.map lookup messages) in
              match detailed return M (Outcome unit Response) with
              | Rejected e => Ret (Rejected e)
              | Resolved ds => Ret (Resolved (json (MessagesBody (present ds))))
              end
          end
      end
  end.

Definition GET (session : option Session) : M Response :=
  match session with
  | Some s =>
      if negb (truthy (accessToken s)) then Ret unauthorized
      else
        let* r := GET_try s in
        match r with
        | Resolved response => Ret response
        | Rejected _ => Ret failed
        end
  | None => Ret unauthorized
  end.

End ListRoute.

(** ** The reply route *)

(** The JSON body of a reply request ([ReplyPayload]). *)
Record ReplyPayload := {
  rp_messageId : option jsstring;
  rp_threadId : option jsstring;
  rp_to : option jsstring;
  rp_subject : option jsstring;
  rp_body : option jsstring;
  rp_messageHeaderId : option jsstring;
}.

Module ReplyRoute.
Import Gmail.

(** *** [Buffer.from(s).toString("base64")]

    [Buffer.from] encodes the string in UTF-8: a surrogate pair is one code
    point, a lone surrogate becomes U+FFFD. *)
Definition is_high_surrogate (c : N) : bool := (55296 <=? c) && (c <=? 56319).
Definition is_low_surrogate (c : N) : bool := (56320 <=? c) && (c <=? 57343).

Fixpoint code_points (s : jsstring) : list N :=
  match s with
  | [] => []
  | c :: rest =>
      if is_high_surrogate c then
        match rest with
        | lo :: rest' =>
            if is_low_surrogate lo
            then (65536 + (c - 55296) * 1024 + (lo - 56320)) :: code_points rest'
            else 65533 :: code_points rest
        | [] => [65533]
        end
      else if is_low_surrogate c then 65533 :: code_points rest
      else c :: code_points rest
  end.

Definition utf8_of_code_point (cp : N) : list N :=
  if cp <? 128 then [cp]
  else if cp <? 2048 then [192 + cp / 64; 128 + cp mod 64]
  else if cp <? 65536 then [224 + cp / 4096; 128 + (cp / 64) mod 64; 128 + cp mod 64]
  else [240 + cp / 262144; 128 + (cp / 4096) mod 64; 128 + (cp / 64) mod 64; 128 + cp mod 64].

Definition utf8 (s : jsstring) : list N :=
  List.concat (List.map utf8_of_code_point (code_points s)).

(** The base64 alphabet: A-Z, a-z, 0-9, [+], [/]. *)
Definition base64_digit (n : N) : N :=
  if n <? 26 then 65 + n
  else if n <? 52 then 97 + (n - 26)
  else if n <? 62 then 48 + (n - 52)
  else if n =? 62 then 43
  else 47.

Fixpoint base64 (bytes : list N) : jsstring :=
  match bytes with
  | [] => []
  | [a] => [base64_digit (a / 4); base64_digit (a mod 4 * 16); 61; 61]
  | [a; b] =>
      [base64_digit (a / 4); base64_digit (a mod 4 * 16 + b / 16);
       base64_digit (b mod 16 * 4); 61]
  | a :: b :: c :: rest =>
      base64_digit (a / 4) :: base64_digit (a mod 4 * 16 + b / 16)
      :: base64_digit (b mod 16 * 4 + c / 64) :: base64_digit (c mod 64)
      :: base64 rest
  end.

(** [s.replace(/a/g, b)] for single code units. *)
Definition replace_all (a b : N) (s : jsstring) : jsstring :=
  List.map (λ c, if c =? a then b else c) s.

(** [s.replace(/=+$/, '')]: the trailing [=] are removed. *)
Definition strip_padding (s : jsstring) : jsstring :=
  rev (drop_while (λ c, c =? 61) (rev s)).

Record EncodedEmailInput := {
  to : jsstring;
  subject : jsstring;
  body : jsstring;
  inReplyTo : option jsstring;
}.

Definition encodeEmail (input : EncodedEmailInput) : jsstring :=
  let headers :=
    [lit "To: " ++ to input;
     lit "Subject: " ++ subject input;
     lit "Content-Type: text/plain; charset=" ++ dquote ++ lit "UTF-8" ++ dquote;
     lit "Content-Transfer-Encoding: 7bit"] in
  let headers :=
    if truthy (inReplyTo input)
    then headers ++ [lit "In-Reply-To: " ++ nullish (inReplyTo input) [];
                     lit "References: " ++ nullish (inReplyTo input) []]
    else headers in
  let lines := headers ++ [[]; body input] in
  strip_padding (replace_all 47 95 (replace_all 43 45 (base64 (utf8 (join nl lines))))).

(** [subject.startsWith("Re:") ? subject : `Re: ${subject}`], the subject of
    the outgoing message. *)
Definition normalizeSubject (s : jsstring) : jsstring :=
  if startsWith (lit "Re:") s then s else lit "Re: " ++ s.

Definition missing_fields : Response :=
  json_status (ErrorBody (lit "Missing required fields")) 400.

Definition failed : Response :=
  json_status (ErrorBody (lit "Failed to send reply")) 500.

(** The condition of the validation [if]. *)
Definition incomplete (p : ReplyPayload) : bool :=
  negb (truthy (rp_messageId p)) || negb (truthy (rp_threadId p))
  || negb (truthy (rp_to p)) || negb (truthy (rp_subject p))
  || negb (truthy (rp_body p)).

(** The [try] block; [Rejected] is control reaching [catch]. *)
Definition POST_try (s : Session) (p : ReplyPayload) : M (Outcome unit Response) :=
  let* gmail := call (CreateClient (nullish (accessToken s) []) (refreshToken s)) in
  match gmail return M (Outcome unit Response) with
  | Rejected e => Ret (Rejected e)
  | Resolved _ =>
      let raw := encodeEmail {| to := nullish (rp_to p) [];
                                subject := normalizeSubject (nullish (rp_subject p) []);
                                body := nullish (rp_body p) [];
                                inReplyTo := rp_messageHeaderId p |} in
      let* sent := call (MessagesSend raw (nullish (rp_threadId p) [])) in
      match sent return M (Outcome unit Response) with
      | Rejected e => Ret (Rejected e)
      | Resolved _ =>
          let* modified :=
            call (MessagesModify (nullish (rp_messageId p) [])
                    [lit "UNREAD"] [lit "STARRED"]) in
          match modified return M (Outcome unit Response) with
          | Rejected e => Ret (Rejected e)
          | Resolved _ => Ret (Resolved (json OkBody))
          end
      end
  end.

(** [session] is what [getServerSession] resolved with and [p] the object
    [request.json()] resolved with; [POST_request] below has the bodies that
    are no objects. *)
Definition POST (session : option Session) (p : ReplyPayload) : M Response :=
  match session with
  | Some s =>
      if negb (truthy (accessToken s)) then Ret unauthorized
      else if incomplete p then Ret missing_fields
      else
        let* r := POST_try s p in
        match r with
        | Resolved response => Ret response
        | Rejected _ => Ret failed
        end
  | None => Ret unauthorized
  end.

(** What [await request.json()] comes to: the body does not parse and the call
    rejects, or it parses to [null], to a value without fields (a boolean, a
    number, a string, an array) or to an object. *)
Inductive RequestBody :=
| Unparseable
| JsonNull
| JsonOther
| JsonObject (p : ReplyPayload).

(** Reading a field of a value without fields gives [undefined]. *)
Definition no_fields : ReplyPayload :=
  {| rp_messageId := None; rp_threadId := None; rp_to := None;
     rp_subject := None; rp_body := None; rp_messageHeaderId := None |}.

(** The handler from the request on. The session is checked first; then
    [request.json()] is awaited and the fields of [payload] are read, both
    outside the [try] block: a body that does not parse makes the handler
    throw, and so does the body [null], of which [payload.messageId] cannot be
    read. [Rejected] is the handler throwing; no response is made then. *)
Definition POST_request (session : option Session) (body : RequestBody)
  : M (Outcome unit Response) :=
  match session with
  | Some s =>
      if negb (truthy (accessToken s)) then Ret (Resolved unauthorized)
      else
        match body with
        | Unparseable => Ret (Rejected tt)
        | JsonNull => Ret (Rejected tt)
        | JsonOther => let* r := POST session no_fields in Ret (Resolved r)
        | JsonObject p => let* r := POST session p in Ret (Resolved r)
        end
  | None => Ret (Resolved unauthorized)
  end.

End ReplyRoute.

(** ** [web/app/page.tsx] *)

Module Page.

Record Template := {
  t_id : jsstring;
  label : jsstring;
  t_body : GmailMessage → jsstring;
}.

Definition acknowledge_body (recipient : GmailMessage) : jsstring :=
  lit "Hi " ++ nullish (fromName recipient) (lit "there") ++ lit "," ++ nl ++ nl
  ++ lit "Thanks for reaching out about " ++ dquote ++ subject recipient ++ dquote
  ++ lit ". I received your message and will circle back with a full response soon."
  ++ nl ++ nl ++ lit "Best," ++ nl.

(** The dash of the second template is U+2014. *)
Definition schedule_body (recipient : GmailMessage) : jsstring :=
  lit "Hi " ++ nullish (fromName recipient) (lit "there") ++ lit "," ++ nl ++ nl
  ++ lit "Appreciate the note regarding " ++ dquote ++ subject recipient ++ dquote
  ++ lit ". Happy to connect" ++ [8212]
  ++ lit "would you have time for a quick call later this week? Let me know a few windows that work for you."
  ++ nl ++ nl ++ lit "Thanks," ++ nl.

Definition follow_up_body (recipient : GmailMessage) : jsstring :=
  lit "Hi " ++ nullish (fromName recipient) (lit "there") ++ lit "," ++ nl ++ nl
  ++ lit "Thanks for reaching out! Could you share a bit more detail about "
  ++ dquote ++ subject recipient ++ dquote ++ lit " so I can help faster?"
  ++ nl ++ nl ++ lit "Looking forward to your reply," ++ nl.

Definition QUICK_REPLIES : list Template :=
  [ {| t_id := lit "acknowledge"; label := lit "Acknowledgement";
       t_body := acknowledge_body |};
    {| t_id := lit "schedule"; label := lit "Schedule a call";
       t_body := schedule_body |};
    {| t_id := lit "follow-up"; label := lit "Ask for details";
       t_body := follow_up_body |} ].

(** [QUICK_REPLIES[0]?.body(message) ?? ''] *)
Definition defaultReply (message : GmailMessage) : jsstring :=
  match QUICK_REPLIES !! 0%nat with
  | Some template => t_body template message
  | None => []
  end.

(** [s.replace(/\s+/g, ' ')]: every maximal run of white space becomes one
    space; [in_run] says that the previous code unit was white space. *)
Fixpoint collapse_spaces (in_run : bool) (s : jsstring) : jsstring :=
  match s with
  | [] => []
  | c :: s' =>
      if is_space c
      then (if in_run then collapse_spaces true s' else 32 :: collapse_spaces true s')
      else c :: collapse_spaces false s'
  end.

Definition smartReply (message : GmailMessage) : jsstring :=
  if negb (truthy (fromAddress message)) then defaultReply message
  else
    let cleanedSnippet := trim (collapse_spaces false (snippet message)) in
    let greeting :=
      if truthy (fromName message)
      then lit "Hi " ++ nullish (fromName message) [] ++ lit ","
      else lit "Hello," in
    greeting ++ nl ++ nl
    ++ lit "Thanks for getting in touch regarding " ++ dquote ++ subject message
    ++ dquote ++ lit ". "
    ++ (match cleanedSnippet with
        | [] => []
        | _ => lit "Here's what I understood from your note: " ++ cleanedSnippet
               ++ lit ". "
        end)
    ++ lit "I'll review the details and follow up with the next steps shortly."
    ++ nl ++ nl ++ lit "Best regards," ++ nl.

(** *** The requests of the page

    [fetch] resolves with a response, of which the page reads [ok] and the
    parsed JSON body, or rejects; a rejection carries the [message] of the
    thrown [Error], [None] if what was thrown is not an [Error]. *)
Record MessagesResponse := {
  l_ok : bool;
  l_messages : list GmailMessage;
  l_error : option jsstring;
}.

Record ReplyResponse := {
  r_ok : bool;
  r_error : option jsstring;
}.

Inductive Op :=
| FetchList                        (* fetch('/api/gmail/list') *)
| FetchReply (p : ReplyPayload).   (* fetch('/api/gmail/reply', { method: 'POST', ... }) *)

Definition Ar (o : Op) : Type :=
  match o with
  | FetchList => Outcome (option jsstring) MessagesResponse
  | FetchReply _ => Outcome (option jsstring) ReplyResponse
  end.

Abbreviation M := (Free Op Ar).

(** The [useState] cells of [InboxAssistant]. *)
Record State := {
  messages : list GmailMessage;
  loadingMessages : bool;
  sendingId : option jsstring;
  replyDrafts : gmap jsstring jsstring;
  error : option jsstring;
  success : option jsstring;
}.

Definition setMessages (f : list GmailMessage → list GmailMessage) (st : State) : State :=
  {| messages := f (messages st); loadingMessages := loadingMessages st;
     sendingId := sendingId st; replyDrafts := replyDrafts st;
     error := error st; success := success st |}.

Definition setLoadingMessages (b : bool) (st : State) : State :=
  {| messages := messages st; loadingMessages := b;
     sendingId := sendingId st; replyDrafts := replyDrafts st;
     error := error st; success := success st |}.

Definition setSendingId (v : option jsstring) (st : State) : State :=
  {| messages := messages st; loadingMessages := loadingMessages st;
     sendingId := v; replyDrafts := replyDrafts st;
     error := error st; success := success st |}.

Definition setReplyDrafts (f : gmap jsstring jsstring → gmap jsstring jsstring)
  (st : State) : State :=
  {| messages := messages st; loadingMessages := loadingMessages st;
     sendingId := sendingId st; replyDrafts := f (replyDrafts st);
     error := error st; success := success st |}.

Definition setError (v : option jsstring) (st : State) : State :=
  {| messages := messages st; loadingMessages := loadingMessages st;
     sendingId := sendingId st; replyDrafts := replyDrafts st;
     error := v; success := success st |}.

Definition setSuccess (v : option jsstring) (st : State) : State :=
  {| messages := messages st; loadingMessages := loadingMessages st;
     sendingId := sendingId st; replyDrafts := replyDrafts st;
     error := error st; success := v |}.

(** [Object.fromEntries(entries)]: a later entry replaces an earlier one with
    the same key. *)
Definition fromEntries (entries : list (jsstring * jsstring)) : gmap jsstring jsstring :=
  foldl (λ m e, <[e.1 := e.2]> m) ∅ entries.

(** [handleRefresh]; [isAuthenticated] is the flag of the render. *)
Definition handleRefresh (isAuthenticated : bool) (st : State) : M State :=
  if negb isAuthenticated then Ret st
  else
    let st := setError None (setLoadingMessages true st) in
    let* response := call FetchList in
    let st :=
      match response with
      | Resolved payload =>
          if negb (l_ok payload)
          then setError (Some (nullish (l_error payload) (lit "Failed to load messages"))) st
          else
            setReplyDrafts
              (λ _, fromEntries
                      (List.map (λ message, (id message, defaultReply message))
                         (l_messages payload)))
              (setMessages (λ _, l_messages payload) st)
      | Rejected refreshError =>
          setError (Some (nullish refreshError (lit "Failed to refresh"))) st
      end in
    Ret (setLoadingMessages false st).

(** [handleSendReply]. The handler reads [replyDrafts] of the render it was
    created in (argument [drafts]) and updates the cells as they are when it
    runs ([st]). *)
Definition handleSendReply (drafts : gmap jsstring jsstring) (message : GmailMessage)
  (st : State) : M State :=
  if negb (truthy (drafts !! id message)) then Ret st
  else
    let st := setError None (setSendingId (Some (id message)) st) in
    let* response :=
      call (FetchReply
              {| rp_messageId := Some (id message);
                 rp_threadId := threadId message;
                 rp_to := match fromAddress message with
                          | Some a => Some a
                          | None => from message
                          end;
                 rp_subject := Some (subject message);
                 rp_body := drafts !! id message;
                 rp_messageHeaderId := messageIdHeader message |}) in
    let st :=
      match response with
      | Resolved r =>
          if negb (r_ok r)
          then setError (Some (nullish (r_error r) (lit "Failed to send reply"))) st
          else
            setMessages
              (λ prev, filter (λ item, id item ≠ id message) prev)
              (setSuccess
                 (Some (lit "Reply sent to "
                        ++ match fromName message with
                           | Some n => n
                           | None => nullish (fromAddress message) (lit "recipient")
                           end))
                 st)
      | Rejected sendError =>
          setError (Some (nullish sendError (lit "Failed to send reply"))) st
      end in
    Ret (setSendingId None st).

Definition handleSmartDraft (message : GmailMessage) (st : State) : State :=
  setReplyDrafts (λ prev, <[id message := smartReply message]> prev) st.

Definition handleTemplate (message : GmailMessage) (templateId : jsstring) (st : State)
  : State :=
  match List.find (λ item, bool_decide (t_id item = templateId)) QUICK_REPLIES with
  | None => st
  | Some template =>
      setReplyDrafts (λ prev, <[id message := t_body template message]> prev) st
  end.

(** The loop of [handleAutoAnswerAll] over the [messages] and with the
    [replyDrafts] of the render the handler was created in. *)
Fixpoint answer_each (drafts : gmap jsstring jsstring) (ms : list GmailMessage)
  (st : State) : M State :=
  match ms with
  | [] => Ret st
  | message :: rest =>
      if negb (truthy (trim <$> drafts !! id message)) then answer_each drafts rest st
      else
        let* st' := handleSendReply drafts message st in
        answer_each drafts rest st'
  end.

(** [handleAutoAnswerAll], clicked in the render of state [st]. *)
Definition handleAutoAnswerAll (st : State) : M State :=
  answer_each (replyDrafts st) (messages st) st.

(** The [disabled] attribute of the send button of a message. *)
Definition send_disabled (st : State) (message : GmailMessage) : bool :=
  bool_decide (sendingId st = Some (id message))
  || negb (truthy (trim <$> replyDrafts st !! id message)).

(** [canSend]: some draft is not empty after trimming. *)
Definition canSend (st : State) : bool :=
  existsb (λ entry, match trim entry.2 with
                    | [] => false
                    | _ => true
                    end)
    (map_to_list (replyDrafts st)).

(** The [disabled] attribute of the answer-all button. *)
Definition answer_all_disabled (st : State) : bool :=
  negb (canSend st)
  || match sendingId st with
     | Some _ => true
     | None => false
     end
  || match messages st with
     | [] => true
     | _ => false
     end.

(** The effect that loads the list when the page is shown. [cancelled] is the
    flag of the effect as it stands when the request has settled: the cleanup
    of the effect sets it while the request is under way. *)
Definition loadMessages (authConfigured isAuthenticated cancelled : bool) (st : State)
  : M State :=
  if negb authConfigured || negb isAuthenticated then Ret (setMessages (λ _, []) st)
  else
    let st := setError None (setLoadingMessages true st) in
    let* response := call FetchList in
    let st :=
      match response with
      | Resolved payload =>
          if negb (l_ok payload)
          then
            if cancelled then st
            else setError (Some (nullish (l_error payload) (lit "Failed to load messages"))) st
          else
            if negb cancelled
            then
              setReplyDrafts
                (λ _, fromEntries
                        (List.map (λ message, (id message, defaultReply message))
                           (l_messages payload)))
                (setMessages (λ _, l_messages payload) st)
            else st
      | Rejected fetchError =>
          if cancelled then st
          else setError (Some (nullish fetchError (lit "Failed to load messages"))) st
      end in
    Ret (if negb cancelled then setLoadingMessages false st else st).

End Page.

(** ** The page against the two routes

    [fetch] of the page answered by the routes, themselves run against a
    mailbox provider [gmail], over a transport that delivers every request and
    response. The world is the state of the provider and the provider calls
    made so far. *)

Module Wire.
Section Wire.
Context {W : Type}.
Variable gmail : ∀ o : Gmail.Op, W → Gmail.Ar o * W.
Variable session : option Session.

(** [response.ok] *)
Definition ok (r : Response) : bool := (200 <=? status r) && (status r <=? 299).

(** [payload.error] and [payload.messages] of the parsed body. *)
Definition error_of (b : Body) : option jsstring :=
  match b with
  | ErrorBody e => Some e
  | _ => None
  end.

Definition messages_of (b : Body) : list GmailMessage :=
  match b with
  | MessagesBody l => l
  | _ => []
  end.

Definition serve (o : Page.Op) (w : W * list Gmail.Op) : Page.Ar o * (W * list Gmail.Op) :=
  match o return Page.Ar o * (W * list Gmail.Op) with
  | Page.FetchList =>
      let r := run gmail (ListRoute.GET session) w.1 in
      (Resolved {| Page.l_ok := ok r.1.1;
                   Page.l_messages := messages_of (body r.1.1);
                   Page.l_error := error_of (body r.1.1) |},
       (r.2, w.2 ++ List.map (λ ev, projT1 ev) r.1.2))
  | Page.FetchReply p =>
      let r := run gmail (ReplyRoute.POST session p) w.1 in
      (Resolved {| Page.r_ok := ok r.1.1;
                   Page.r_error := error_of (body r.1.1) |},
       (r.2, w.2 ++ List.map (λ ev, projT1 ev) r.1.2))
  end.

End Wire.
End Wire.

(** ** Vocabulary of the statements *)

(** One of the five required fields of a reply request is absent. *)
Definition field_absent (p : ReplyPayload) : Prop :=
  rp_messageId p = None ∨ rp_threadId p = None ∨ rp_to p = None
  ∨ rp_subject p = None ∨ rp_body p = None.

(** The body of a reply request lacks a required field: it did not parse, it
    is a value that has no fields, or it is an object without one of them. *)
Definition lacks_field (body : ReplyRoute.RequestBody) : Prop :=
  match body with
  | ReplyRoute.JsonObject p => field_absent p
  | _ => True
  end.

(** An entry of the unread query carries an identifier: [!id] is false. *)
Definition carries_id (entry : Gmail.MessageRef) : bool := truthy (Gmail.ref_id entry).

(** The identifier and the answer of a lookup that resolved, if the event is
    one. *)
Definition looked (ev : sigT Gmail.Ar) : option (jsstring * Gmail.Detail) :=
  match ev with
  | existT (Gmail.MessagesGet i _ _) (Resolved detail) => Some (i, detail)
  | _ => None
  end.

(** The record the route builds for [entry] from the lookup [g] of its
    identifier. *)
Definition record_of (entry : Gmail.MessageRef) (g : jsstring * Gmail.Detail)
  : GmailMessage :=
  ListRoute.enrich g.1 (Gmail.ref_threadId entry) g.2.

(** [gets] are the lookups of the entries [es], one for each and in their
    order, and [ms] the records built from them, in the same order. *)
Definition enriched_from (es : list Gmail.MessageRef)
  (gets : list (jsstring * Gmail.Detail)) (ms : list GmailMessage) : Prop :=
  List.map Gmail.ref_id es = List.map (λ g, Some g.1) gets
  ∧ ms = zip_with record_of es gets.

(** The event is a reply request that came back with [response.ok]. *)
Definition reply_accepted (ev : sigT Page.Ar) : bool :=
  match ev with
  | existT (Page.FetchReply _) (Resolved r) => Page.r_ok r
  | _ => false
  end.

(** The event is a reply request whose body is not empty after trimming. *)
Definition carries_text (ev : sigT Page.Ar) : bool :=
  match ev with
  | existT (Page.FetchReply p) _ => truthy (trim <$> rp_body p)
  | existT Page.FetchList _ => false
  end.

(** After the words of the specification: the enclosing quote characters of a
    quoted display name, and only these, are stripped. *)
Definition strip_enclosing_quotes (s : jsstring) : jsstring :=
  match s with
  | 34 :: s' =>
      match rev s' with
      | 34 :: inner => rev inner
      | _ => s
      end
  | _ => s
  end.

(** [name?.length ? name : null] for a string. *)
Definition non_empty (s : jsstring) : option jsstring :=
  match s with
  | [] => None
  | _ => Some s
  end.

(** ** A mailbox to run the routes against

    A provider without state, used where a statement is tried on an example:
    the unread query answers [unread], a lookup answers from [details] and
    throws for an identifier it does not know, sending and relabelling succeed
    or throw as the two flags say. *)
Record Mailbox := {
  unread : list Gmail.MessageRef;
  details : list (jsstring * Gmail.Detail);
  send_works : bool;
  modify_works : bool;
}.

Definition settle (works : bool) : Outcome unit unit :=
  if works then Resolved tt else Rejected tt.

Definition provider (mb : Mailbox) (o : Gmail.Op) (w : unit) : Gmail.Ar o * unit :=
  match o return Gmail.Ar o * unit with
  | Gmail.CreateClient _ _ => (Resolved tt, w)
  | Gmail.MessagesList _ _ _ => (Resolved (Some (unread mb)), w)
  | Gmail.MessagesGet i _ _ =>
      (match List.find (λ d, bool_decide (d.1 = i)) (details mb) with
       | Some d => Resolved d.2
       | None => Rejected tt
       end, w)
  | Gmail.MessagesSend _ _ => (settle (send_works mb), w)
  | Gmail.MessagesModify _ _ _ => (settle (modify_works mb), w)
  end.

Definition header (n v : jsstring) : Gmail.MessageHeader :=
  {| Gmail.name := Some n; Gmail.value := Some v |}.

Definition detail_of (subj sender : jsstring) (snip : jsstring) : Gmail.Detail :=
  {| Gmail.payload :=
       Some {| Gmail.headers := Some [header (lit "From") sender;
                                      header (lit "Subject") subj] |};
     Gmail.d_threadId := None;
     Gmail.d_snippet := Some snip;
     Gmail.d_internalDate := None |}.

(** Two unread messages and, between them, an entry without identifier. *)
Definition inbox : Mailbox :=
  {| unread := [ {| Gmail.ref_id := Some (lit "m1"); Gmail.ref_threadId := Some (lit "t1") |};
                 {| Gmail.ref_id := None; Gmail.ref_threadId := Some (lit "t0") |};
                 {| Gmail.ref_id := Some (lit "m2"); Gmail.ref_threadId := Some (lit "t2") |} ];
     details := [ (lit "m1", detail_of (lit "Invoice") (lit "Alex Doe <alex@example.com>")
                               (lit "Please find attached"));
                  (lit "m2", detail_of (lit "Lunch") (lit "bo@example.com") (lit "Friday?")) ];
     send_works := true;
     modify_works := true |}.

(** The same mailbox when the lookup of [m2] throws, and when relabelling
    throws. *)
Definition inbox_lookup_fails : Mailbox :=
  {| unread := unread inbox; details := take 1 (details inbox);
     send_works := true; modify_works := true |}.

Definition inbox_modify_fails : Mailbox :=
  {| unread := unread inbox; details := details inbox;
     send_works := true; modify_works := false |}.

Definition signed_in : option Session :=
  Some {| accessToken := Some (lit "token"); refreshToken := None |}.

(** The records the list route builds for the two messages of [inbox]. *)
Definition message1 : GmailMessage :=
  {| id := lit "m1"; threadId := Some (lit "t1"); subject := lit "Invoice";
     from := Some (lit "Alex Doe <alex@example.com>");
     fromName := Some (lit "Alex Doe"); fromAddress := Some (lit "alex@example.com");
     snippet := lit "Please find attached"; internalDate := None;
     date := None; messageIdHeader := None |}.

Definition message2 : GmailMessage :=
  {| id := lit "m2"; threadId := Some (lit "t2"); subject := lit "Lunch";
     from := Some (lit "bo@example.com");
     fromName := None; fromAddress := Some (lit "bo@example.com");
     snippet := lit "Friday?"; internalDate := None;
     date := None; messageIdHeader := None |}.

(** The request the page makes to answer [message1] with [draft]. *)
Definition reply_to_message1 (draft : jsstring) : ReplyPayload :=
  {| rp_messageId := Some (lit "m1"); rp_threadId := Some (lit "t1");
     rp_to := Some (lit "alex@example.com"); rp_subject := Some (lit "Invoice");
     rp_body := Some draft; rp_messageHeaderId := None |}.

(** The page after the list of [inbox] has been loaded, and the same page with
    the draft for [message1] replaced by three spaces. *)
Definition loaded : Page.State :=
  {| Page.messages := [message1; message2];
     Page.loadingMessages := false;
     Page.sendingId := None;
     Page.replyDrafts :=
       Page.fromEntries [(lit "m1", Page.defaultReply message1);
                         (lit "m2", Page.defaultReply message2)];
     Page.error := None;
     Page.success := None |}.

Definition blank : jsstring := [32; 32; 32].

Definition loaded_blank_draft : Page.State :=
  Page.setReplyDrafts (λ prev, <[lit "m1" := blank]> prev) loaded.

(** ** Vocabulary of the further statements *)

(** A character of the URL-safe base64 alphabet: a letter, a digit, [-] or [_]. *)
Definition url_safe (c : N) : bool :=
  ((65 <=? c) && (c <=? 90)) || ((97 <=? c) && (c <=? 122))
  || ((48 <=? c) && (c <=? 57)) || (c =? 45) || (c =? 95).

(** The text [encodeEmail] encodes: [lines.join(...)] with a line feed. *)
Definition envelope (input : ReplyRoute.EncodedEmailInput) : jsstring :=
  let headers :=
    [lit "To: " ++ ReplyRoute.to input;
     lit "Subject: " ++ ReplyRoute.subject input;
     lit "Content-Type: text/plain; charset=" ++ dquote ++ lit "UTF-8" ++ dquote;
     lit "Content-Transfer-Encoding: 7bit"] in
  let headers :=
    if truthy (ReplyRoute.inReplyTo input)
    then headers ++ [lit "In-Reply-To: " ++ nullish (ReplyRoute.inReplyTo input) [];
                     lit "References: " ++ nullish (ReplyRoute.inReplyTo input) []]
    else headers in
  join nl (headers ++ [[]; ReplyRoute.body input]).

(** The reader of the [raw] field: the value of a character of the URL-safe
    alphabet, and the bytes of an unpadded URL-safe base64 text. *)
Definition base64url_value (c : N) : N :=
  if (65 <=? c) && (c <=? 90) then c - 65
  else if (97 <=? c) && (c <=? 122) then c - 97 + 26
  else if (48 <=? c) && (c <=? 57) then c - 48 + 52
  else if c =? 45 then 62
  else 63.

Fixpoint base64url_decode (s : jsstring) : list N :=
  match s with
  | c1 :: c2 :: c3 :: c4 :: rest =>
      let v1 := base64url_value c1 in
      let v2 := base64url_value c2 in
      let v3 := base64url_value c3 in
      let v4 := base64url_value c4 in
      (v1 * 4 + v2 / 16) :: (v2 mod 16 * 16 + v3 / 4) :: (v3 mod 4 * 64 + v4)
      :: base64url_decode rest
  | [c1; c2; c3] =>
      let v1 := base64url_value c1 in
      let v2 := base64url_value c2 in
      let v3 := base64url_value c3 in
      [v1 * 4 + v2 / 16; v2 mod 16 * 16 + v3 / 4]
  | [c1; c2] =>
      [base64url_value c1 * 4 + base64url_value c2 / 16]
  | _ => []
  end.

(** The groups of six bits of a sequence of bytes, the last one filled with
    zero bits. *)
Fixpoint sextets (bytes : list N) : list N :=
  match bytes with
  | [] => []
  | [a] => [a / 4; a mod 4 * 16]
  | [a; b] => [a / 4; a mod 4 * 16 + b / 16; b mod 16 * 4]
  | a :: b :: c :: rest =>
      a / 4 :: (a mod 4 * 16 + b / 16) :: (b mod 16 * 4 + c / 64) :: c mod 64
      :: sextets rest
  end.

(** A character of the output of [encodeEmail] for a group of six bits. *)
Definition url_digit (n : N) : N :=
  let c := ReplyRoute.base64_digit n in
  if c =? 43 then 45 else if c =? 47 then 95 else c.

(** The three provider calls of a reply, in the order the route makes them:
    the client, the submission of the encoded envelope within the thread, and
    the label mutation on the original message. *)
Definition reply_calls (s : Session) (p : ReplyPayload) : list Gmail.Op :=
  [ Gmail.CreateClient (nullish (accessToken s) []) (refreshToken s);
    Gmail.MessagesSend
      (ReplyRoute.encodeEmail
         {| ReplyRoute.to := nullish (rp_to p) [];
            ReplyRoute.subject := ReplyRoute.normalizeSubject (nullish (rp_subject p) []);
            ReplyRoute.body := nullish (rp_body p) [];
            ReplyRoute.inReplyTo := rp_messageHeaderId p |})
      (nullish (rp_threadId p) []);
    Gmail.MessagesModify (nullish (rp_messageId p) []) [lit "UNREAD"] [lit "STARRED"] ].

(** The lookup the list route makes for an entry that carries an identifier. *)
Definition lookup_call (entry : Gmail.MessageRef) : Gmail.Op :=
  Gmail.MessagesGet (nullish (Gmail.ref_id entry) []) (lit "metadata")
    ListRoute.METADATA_HEADERS.

(** The two calls every run of the list route starts with, once authenticated. *)
Definition list_calls (s : Session) : list Gmail.Op :=
  [ Gmail.CreateClient (nullish (accessToken s) []) (refreshToken s);
    Gmail.MessagesList [lit "INBOX"] (lit "is:unread") 15 ].

(** A mailbox without unread message. *)
Definition inbox_empty : Mailbox :=
  {| unread := []; details := []; send_works := true; modify_works := true |}.

(** No two white-space characters in a row; [after_space] says that the
    character before the string is one. *)
Fixpoint single_spaced (after_space : bool) (s : jsstring) : bool :=
  match s with
  | [] => true
  | c :: s' =>
      if is_space c then negb after_space && single_spaced true s'
      else single_spaced false s'
  end.

(** The [cleanedSnippet] of [smartReply]. *)
Definition cleaned (snippet : jsstring) : jsstring :=
  trim (Page.collapse_spaces false snippet).

(** The [greeting] of [smartReply]. *)
Definition greeting (message : GmailMessage) : jsstring :=
  if truthy (fromName message)
  then lit "Hi " ++ nullish (fromName message) [] ++ lit ","
  else lit "Hello,".

(** The list of headers the list route reads: [payload?.headers ?? []]. *)
Definition headers_of (detail : Gmail.Detail) : list Gmail.MessageHeader :=
  nullish (match Gmail.payload detail with
           | Some p => Gmail.headers p
           | None => None
           end) [].

(** The request [handleSendReply] makes for [message], with the drafts
    [drafts] of the render. *)
Definition reply_request (drafts : gmap jsstring jsstring) (message : GmailMessage)
  : ReplyPayload :=
  {| rp_messageId := Some (id message);
     rp_threadId := threadId message;
     rp_to := match fromAddress message with
              | Some a => Some a
              | None => from message
              end;
     rp_subject := Some (subject message);
     rp_body := drafts !! id message;
     rp_messageHeaderId := messageIdHeader message |}.

(** The draft of [message] is not empty after trimming. *)
Definition has_text (drafts : gmap jsstring jsstring) (message : GmailMessage) : bool :=
  truthy (trim <$> drafts !! id message).

(** The event is a list request that came back with [response.ok]. *)
Definition list_loaded (ev : sigT Page.Ar) : bool :=
  match ev with
  | existT Page.FetchList (Resolved payload) => Page.l_ok payload
  | _ => false
  end.

(** The error the page shows for a reply request that was refused or did not
    come back: the [error] of the response, the message of what was thrown,
    or else "Failed to send reply". *)
Definition reply_failure (ev : sigT Page.Ar) : option jsstring :=
  match ev with
  | existT (Page.FetchReply _) (Resolved r) =>
      if Page.r_ok r then None
      else Some (nullish (Page.r_error r) (lit "Failed to send reply"))
  | existT (Page.FetchReply _) (Rejected thrown) =>
      Some (nullish thrown (lit "Failed to send reply"))
  | existT Page.FetchList _ => None
  end.

(** The page before anything has been loaded. *)
Definition initial : Page.State :=
  {| Page.messages := []; Page.loadingMessages := false; Page.sendingId := None;
     Page.replyDrafts := ∅; Page.error := None; Page.success := None |}.

(** What the page reads of a response of the list route. *)
Definition list_response (r : Response) : Page.MessagesResponse :=
  {| Page.l_ok := Wire.ok r;
     Page.l_messages := Wire.messages_of (body r);
     Page.l_error := Wire.error_of (body r) |}.

(** A message with an empty subject, and a draft for it. *)
Definition message_without_subject : GmailMessage :=
  {| id := lit "m5"; threadId := Some (lit "t5"); subject := [];
     from := Some (lit "bo@example.com"); fromName := None;
     fromAddress := Some (lit "bo@example.com"); snippet := lit "see above";
     internalDate := None; date := None; messageIdHeader := None |}.

(** * Properties *)

(** ** Strings *)

Lemma drop_while_app_all (p : N → bool) (a b : jsstring) :
  Forall (λ c, p c = true) a → drop_while p (a ++ b) = drop_while p b.
Proof.
  induction 1 as [|c a Hc _ IH]; simpl; [done|]. by rewrite Hc.
Qed.

Lemma drop_while_stop (p : N → bool) (c : N) (s : jsstring) :
  p c = false → drop_while p (c :: s) = c :: s.
Proof. intros Hc. simpl. by rewrite Hc. Qed.

Lemma drop_while_idem (p : N → bool) (s : jsstring) :
  drop_while p (drop_while p s) = drop_while p s.
Proof.
  induction s as [|c s IH]; simpl; [done|].
  destruct (p c) eqn:Hc; [done|]. simpl. by rewrite Hc.
Qed.

Lemma line_terminator_is_space (c : N) :
  is_line_terminator c = true → is_space c = true.
Proof. unfold is_space. intros ->. by rewrite !orb_true_r. Qed.

Lemma startsWith_app (p s : jsstring) : startsWith p (p ++ s) = true.
Proof.
  induction p as [|a p IH]; simpl; [done|]. by rewrite N.eqb_refl.
Qed.

(** ** The templates *)

(** C5. For a message whose [fromAddress] is null, [smartReply] returns
    exactly what the first quick-reply template, [acknowledge], returns for
    that message. *)
Theorem smartReply_without_address (message : GmailMessage) :
  fromAddress message = None →
  ∃ template,
    head Page.QUICK_REPLIES = Some template
    ∧ Page.t_id template = lit "acknowledge"
    ∧ Page.smartReply message = Page.t_body template message.
Proof.
  intros Hnone. eexists. split; [reflexivity|]. split; [reflexivity|].
  unfold Page.smartReply. by rewrite Hnone.
Qed.

Lemma smartReply_without_address_witness :
  ∃ template,
    head Page.QUICK_REPLIES = Some template
    ∧ Page.t_id template = lit "acknowledge"
    ∧ Page.smartReply
        {| id := lit "m1"; threadId := Some (lit "t1"); subject := lit "Invoice";
           from := None; fromName := None; fromAddress := None;
           snippet := lit "Please find attached"; internalDate := None;
           date := None; messageIdHeader := None |}
      = Page.t_body template
        {| id := lit "m1"; threadId := Some (lit "t1"); subject := lit "Invoice";
           from := None; fromName := None; fromAddress := None;
           snippet := lit "Please find attached"; internalDate := None;
           date := None; messageIdHeader := None |}.
Proof.
  apply (smartReply_without_address
           {| id := lit "m1"; threadId := Some (lit "t1"); subject := lit "Invoice";
              from := None; fromName := None; fromAddress := None;
              snippet := lit "Please find attached"; internalDate := None;
              date := None; messageIdHeader := None |}).
  reflexivity.
Defined.

(** ** The subject of the outgoing message *)

Lemma normalizeSubject_starts_with_Re (s : jsstring) :
  startsWith (lit "Re:") (ReplyRoute.normalizeSubject s) = true.
Proof.
  unfold ReplyRoute.normalizeSubject.
  destruct (startsWith (lit "Re:") s) eqn:Hs; [done|].
  change (lit "Re: ") with (lit "Re:" ++ [32]).
  rewrite <- app_assoc. apply startsWith_app.
Qed.

(** C6. Normalising the subject ("Re: " in front unless it starts with "Re:")
    is idempotent. *)
Theorem normalizeSubject_idempotent (s : jsstring) :
  ReplyRoute.normalizeSubject (ReplyRoute.normalizeSubject s)
  = ReplyRoute.normalizeSubject s.
Proof.
  unfold ReplyRoute.normalizeSubject at 1.
  by rewrite normalizeSubject_starts_with_Re.
Qed.

(** ** Validation and authentication in the routes *)

Lemma truthy_None_false : truthy None = false.
Proof. reflexivity. Qed.

(** An object in which [messageId], [threadId], [to], [subject] or [body] is
    absent, sent by an authenticated caller, is answered with status 400; the
    route is then a plain return: no provider call is made, whatever the
    provider would have answered. *)
Lemma POST_missing_field (session : option Session) (p : ReplyPayload) :
  authenticated session = true →
  rp_messageId p = None ∨ rp_threadId p = None ∨ rp_to p = None
  ∨ rp_subject p = None ∨ rp_body p = None →
  ReplyRoute.POST session p = Ret ReplyRoute.missing_fields
  ∧ status ReplyRoute.missing_fields = 400
  ∧ ∀ (W : Type) (h : ∀ o, W → Gmail.Ar o * W) (w : W),
      performed h (ReplyRoute.POST session p) w = [].
Proof.
  intros Hauth Hmiss.
  assert (Hpost : ReplyRoute.POST session p = Ret ReplyRoute.missing_fields).
  { destruct session as [s|]; [|done]. simpl in Hauth.
    unfold ReplyRoute.POST. rewrite Hauth. simpl.
    assert (Hinc : ReplyRoute.incomplete p = true).
    { unfold ReplyRoute.incomplete.
      destruct Hmiss as [-> | [-> | [-> | [-> | ->]]]];
        rewrite truthy_None_false; simpl; by rewrite ?orb_true_r. }
    by rewrite Hinc. }
  split; [done|]. split; [done|].
  intros W h w. by rewrite Hpost.
Qed.

(** C8, as the route has it. An authenticated reply request whose body parses
    to a value other than [null] in which [messageId], [threadId], [to],
    [subject] or [body] is absent (an object without one of them, or a value
    that has no fields at all) is answered with status 400 and "Missing
    required fields". A body that does not parse, or the body [null], makes
    the handler throw instead: [request.json()] and the reads of the fields
    come before the [try] block, and no 400 is made. In all these cases the
    handler is through without a single provider call, whatever the provider
    would have answered. *)
Theorem POST_request_missing_field (session : option Session)
  (sent : ReplyRoute.RequestBody) :
  authenticated session = true →
  lacks_field sent →
  match sent with
  | ReplyRoute.Unparseable | ReplyRoute.JsonNull =>
      ReplyRoute.POST_request session sent = Ret (Rejected tt)
  | ReplyRoute.JsonOther | ReplyRoute.JsonObject _ =>
      ReplyRoute.POST_request session sent = Ret (Resolved ReplyRoute.missing_fields)
  end
  ∧ status ReplyRoute.missing_fields = 400
  ∧ body ReplyRoute.missing_fields = ErrorBody (lit "Missing required fields")
  ∧ ∀ (W : Type) (h : ∀ o, W → Gmail.Ar o * W) (w : W),
      performed h (ReplyRoute.POST_request session sent) w = [].
Proof.
  intros Hauth Hlacks.
  assert (Hobject : ∀ p, field_absent p →
            ReplyRoute.POST_request session (ReplyRoute.JsonObject p)
            = Ret (Resolved ReplyRoute.missing_fields)).
  { intros p Hp. destruct (POST_missing_field session p Hauth Hp) as (Hpost & _).
    destruct session as [s|]; [|done]. simpl in Hauth.
    unfold ReplyRoute.POST_request. rewrite Hauth. cbn [negb].
    by rewrite Hpost. }
  assert (Hother : ReplyRoute.POST_request session ReplyRoute.JsonOther
                   = Ret (Resolved ReplyRoute.missing_fields)).
  { destruct (POST_missing_field session ReplyRoute.no_fields Hauth) as (Hpost & _);
      [by left|].
    destruct session as [s|]; [|done]. simpl in Hauth.
    unfold ReplyRoute.POST_request. rewrite Hauth. cbn [negb].
    by rewrite Hpost. }
  assert (Hthrows : ReplyRoute.POST_request session ReplyRoute.Unparseable
                    = Ret (Rejected tt)
                    ∧ ReplyRoute.POST_request session ReplyRoute.JsonNull
                      = Ret (Rejected tt)).
  { destruct session as [s|]; [|done]. simpl in Hauth.
    unfold ReplyRoute.POST_request. by rewrite Hauth. }
  destruct Hthrows as [Hunparseable Hnull].
  destruct sent as [| | |p]; simpl in Hlacks.
  - split; [done|]. split; [done|]. split; [done|].
    intros W h w. by rewrite Hunparseable.
  - split; [done|]. split; [done|]. split; [done|].
    intros W h w. by rewrite Hnull.
  - split; [done|]. split; [done|]. split; [done|].
    intros W h w. by rewrite Hother.
  - split; [by apply Hobject|]. split; [done|]. split; [done|].
    intros W h w. by rewrite (Hobject p Hlacks).
Qed.

Lemma POST_request_missing_field_witness :
  ReplyRoute.POST_request signed_in
    (ReplyRoute.JsonObject
       {| rp_messageId := Some (lit "m1"); rp_threadId := None;
          rp_to := Some (lit "a@b.com"); rp_subject := Some (lit "Hello");
          rp_body := Some (lit "Thanks"); rp_messageHeaderId := None |})
  = Ret (Resolved ReplyRoute.missing_fields)
  ∧ performed (provider inbox)
      (ReplyRoute.POST_request signed_in
         (ReplyRoute.JsonObject
            {| rp_messageId := Some (lit "m1"); rp_threadId := None;
               rp_to := Some (lit "a@b.com"); rp_subject := Some (lit "Hello");
               rp_body := Some (lit "Thanks"); rp_messageHeaderId := None |})) tt
    = [].
Proof.
  pose proof (POST_request_missing_field signed_in
                (ReplyRoute.JsonObject
                   {| rp_messageId := Some (lit "m1"); rp_threadId := None;
                      rp_to := Some (lit "a@b.com"); rp_subject := Some (lit "Hello");
                      rp_body := Some (lit "Thanks"); rp_messageHeaderId := None |}))
    as Hthm.
  destruct Hthm as (Hpost & _ & _ & Hnone).
  - reflexivity.
  - right. left. reflexivity.
  - split; [exact Hpost|apply Hnone].
Defined.

(** C8, as stated, fails. The caller is authenticated and the body of the
    request is [null], in which every required field is absent: the handler
    throws on reading [payload.messageId] and answers nothing, so there is no
    400. It makes no provider call either. *)
Lemma null_body_gets_no_400 :
  authenticated signed_in = true
  ∧ lacks_field ReplyRoute.JsonNull
  ∧ result (provider inbox) (ReplyRoute.POST_request signed_in ReplyRoute.JsonNull) tt
    = Rejected tt
  ∧ result (provider inbox) (ReplyRoute.POST_request signed_in ReplyRoute.JsonNull) tt
    ≠ Resolved ReplyRoute.missing_fields
  ∧ performed (provider inbox) (ReplyRoute.POST_request signed_in ReplyRoute.JsonNull) tt
    = [].
Proof. repeat split. discriminate. Qed.

Lemma GET_unauthenticated (session : option Session) :
  authenticated session = false → ListRoute.GET session = Ret unauthorized.
Proof.
  destruct session as [s|]; [|done]. simpl. intros Hs.
  unfold ListRoute.GET. by rewrite Hs.
Qed.

Lemma POST_unauthenticated (session : option Session) (p : ReplyPayload) :
  authenticated session = false → ReplyRoute.POST session p = Ret unauthorized.
Proof.
  destruct session as [s|]; [|done]. simpl. intros Hs.
  unfold ReplyRoute.POST. by rewrite Hs.
Qed.



(** ** Running the routes *)

Section RunLemmas.
Context {Op : Type} {Ar : Op → Type} {W : Type}.
Variable h : ∀ o : Op, W → Ar o * W.

Lemma run_bind {A B} (m : Free Op Ar A) (f : A → Free Op Ar B) (w : W) :
  run h (bind m f) w
  = let r := run h m w in
    let r' := run h (f r.1.1) r.2 in
    (r'.1.1, r.1.2 ++ r'.1.2, r'.2).
Proof.
  revert w. induction m as [a|o k IH]; intros w; simpl.
  - by destruct (run h (f a) w) as [[? ?] ?].
  - destruct (h o w) as [x w1]. rewrite IH. simpl.
    destruct (run h (k x) w1) as [[a evs] w2]. simpl.
    by destruct (run h (f a) w2) as [[? ?] ?].
Qed.

Lemma run_call (o : Op) (w : W) :
  run h (call o) w = ((h o w).1, [existT o (h o w).1], (h o w).2).
Proof. simpl. by destruct (h o w). Qed.

End RunLemmas.

Section ListRouteRuns.
Context {W : Type}.
Variable h : ∀ o : Gmail.Op, W → Gmail.Ar o * W.

(** One lookup of the fan-out: no call for an entry without identifier, one
    call for an entry with one. *)
Lemma run_lookup (entry : Gmail.MessageRef) (w : W) :
  let r := run h (ListRoute.lookup entry) w in
  Forall (λ ev, Gmail.listed ev = None) r.1.2
  ∧ match r.1.1 with
    | Rejected _ => Exists (λ ev, Gmail.rejected ev = true) r.1.2
    | Resolved d =>
        Forall (λ ev, Gmail.rejected ev = false) r.1.2
        ∧ enriched_from (List.filter carries_id [entry]) (omap looked r.1.2)
            (ListRoute.present [d])
    end.
Proof.
  unfold ListRoute.lookup, enriched_from, carries_id. simpl List.filter.
  destruct (truthy (Gmail.ref_id entry)) eqn:Hid; simpl.
  - destruct (h _ w) as [[detail|e] w1]; simpl.
    + repeat split; [by repeat constructor..|].
      by destruct (Gmail.ref_id entry).
    + split; [by repeat constructor|]. by constructor.
  - by repeat split.
Qed.

Lemma enriched_from_app (es1 es2 : list Gmail.MessageRef)
  (gets1 gets2 : list (jsstring * Gmail.Detail)) (ms1 ms2 : list GmailMessage) :
  enriched_from es1 gets1 ms1 → enriched_from es2 gets2 ms2 →
  enriched_from (es1 ++ es2) (gets1 ++ gets2) (ms1 ++ ms2).
Proof.
  intros [Hids1 ->] [Hids2 ->]. split.
  - by rewrite !List.map_app, Hids1, Hids2.
  - rewrite zip_with_app; [done|].
    apply (f_equal length) in Hids1. by rewrite !length_map in Hids1.
Qed.

Lemma run_promise_all_lookup (entries : list Gmail.MessageRef) (w : W) :
  let r := run h (promise_all (List.map ListRoute.lookup entries)) w in
  Forall (λ ev, Gmail.listed ev = None) r.1.2
  ∧ match r.1.1 with
    | Rejected _ => Exists (λ ev, Gmail.rejected ev = true) r.1.2
    | Resolved ds =>
        Forall (λ ev, Gmail.rejected ev = false) r.1.2
        ∧ enriched_from (List.filter carries_id entries) (omap looked r.1.2)
            (ListRoute.present ds)
    end.
Proof.
  revert w. induction entries as [|entry entries IH]; intros w; simpl.
  - by repeat split.
  - rewrite run_bind. simpl.
    pose proof (run_lookup entry w) as [Hl1 H1]. simpl in Hl1, H1.
    destruct (run h (ListRoute.lookup entry) w) as [[r1 evs1] w1]. simpl in *.
    rewrite run_bind. simpl.
    specialize (IH w1) as [Hl2 H2]. simpl in Hl2, H2.
    destruct (run h (promise_all (List.map ListRoute.lookup entries)) w1)
      as [[r2 evs2] w2]. simpl in *.
    rewrite app_nil_r. split; [by apply Forall_app|].
    destruct r1 as [d|e].
    + destruct r2 as [ds|e].
      * destruct H1 as [H1 Hd], H2 as [H2 Hds].
        split; [by apply Forall_app|].
        rewrite omap_app.
        assert (Hpresent : ListRoute.present (d :: ds)
                           = ListRoute.present [d] ++ ListRoute.present ds)
          by apply (omap_app _ [d] ds).
        rewrite Hpresent.
        change (if carries_id entry
                then entry :: List.filter carries_id entries
                else List.filter carries_id entries)
          with (List.filter carries_id ([entry] ++ entries)).
        rewrite List.filter_app. by apply enriched_from_app.
      * apply Exists_app. by right.
    + apply Exists_app. by left.
Qed.

(** The records carry the identifiers of the entries, in their order. *)
Lemma enriched_from_ids (es : list Gmail.MessageRef)
  (gets : list (jsstring * Gmail.Detail)) (ms : list GmailMessage) :
  enriched_from es gets ms →
  List.map (λ message, Some (id message)) ms = List.map Gmail.ref_id es.
Proof.
  intros [Hids ->]. revert gets Hids.
  induction es as [|e es IH]; intros [|g gets] Hids; try done.
  simpl in *. injection Hids as Hg Hids. by rewrite Hg, IH.
Qed.

End ListRouteRuns.

(** ** The list route *)

Section ListRouteTheorems.
Context {W : Type}.
Variable h : ∀ o : Gmail.Op, W → Gmail.Ar o * W.

(** How a run of the route ends, by what its calls were answered. *)
Lemma GET_run (s : Session) (w : W) :
  truthy (accessToken s) = true →
  let r := run h (ListRoute.GET (Some s)) w in
  (Exists (λ ev, Gmail.rejected ev = true) r.1.2 ∧ r.1.1 = ListRoute.failed)
  ∨ (Forall (λ ev, Gmail.rejected ev = false) r.1.2
     ∧ ∃ entries,
         Exists (λ ev, Gmail.listed ev = Some entries) r.1.2
         ∧ Forall (λ ev, Gmail.listed ev = None ∨ Gmail.listed ev = Some entries) r.1.2
         ∧ ∃ ms, r.1.1 = json (MessagesBody ms)
                 ∧ enriched_from (List.filter carries_id entries)
                     (omap looked r.1.2) ms).
Proof.
  intros Hs. unfold ListRoute.GET. rewrite Hs. simpl.
  destruct (h (Gmail.CreateClient _ _) w) as [[[]|[]] w1]; simpl.
  2: { left. split; [by constructor|done]. }
  destruct (h (Gmail.MessagesList _ _ _) w1) as [[data|[]] w2]; simpl.
  2: { left. split; [|done]. apply Exists_cons_tl, Exists_cons_hd. done. }
  destruct (nullish data []) as [|entry entries] eqn:Hdata; [simpl|cbv iota].
  - right. split; [by repeat constructor|].
    exists []. split. { right. left. simpl. by rewrite Hdata. }
    split. { constructor; [by left|]. constructor; [|constructor]. right. simpl. by rewrite Hdata. }
    exists []. by split.
  - rewrite !run_bind.
    pose proof (run_promise_all_lookup h (entry :: entries) w2) as [Hl Hr].
    cbv zeta in Hl, Hr.
    destruct (run h (promise_all (List.map ListRoute.lookup (entry :: entries))) w2)
      as [[[ds|[]] evs] w3]; simpl in *.
    + right. destruct Hr as [Hrej Hds]. rewrite ?app_nil_r.
      split; [by repeat constructor|].
      exists (entry :: entries).
      split. { right. left. simpl. by rewrite Hdata. }
      split.
      { constructor; [by left|]. constructor; [right; simpl; by rewrite Hdata|].
        eapply Forall_impl; [exact Hl|]. intros ev ->. by left. }
      eexists. split; [done|]. exact Hds.
    + left. rewrite ?app_nil_r. split; [|done].
      right. right. done.
Qed.

(** C7. When the unread query or any lookup throws, the route answers with
    the one generic failure, status 500 and an error message, and with no
    message at all: the lookups that had succeeded are not returned. *)
Theorem GET_fails_as_a_whole (session : option Session) (w : W) :
  authenticated session = true →
  Exists (λ ev, Gmail.rejected ev = true) (events h (ListRoute.GET session) w) →
  result h (ListRoute.GET session) w = ListRoute.failed
  ∧ status ListRoute.failed = 500
  ∧ body ListRoute.failed = ErrorBody (lit "Failed to load messages").
Proof.
  intros Hauth Hrej. split; [|done].
  destruct session as [s|]; [|done]. simpl in Hauth.
  destruct (GET_run s w Hauth) as [[_ Hfailed]|[Hnone _]]; [done|].
  exfalso. unfold events in Hrej.
  apply Exists_exists in Hrej as (ev & Hin & Hev).
  rewrite Forall_forall in Hnone. specialize (Hnone ev Hin). congruence.
Qed.

(** C4. When no call throws, the route answers with exactly the enriched
    records of the entries of the unread query that carry an identifier, in
    the order of these entries: one lookup was made for each of them, the
    records are built from these lookups one by one, and they carry, in order,
    the identifiers of these entries. An entry without identifier leaves no
    trace in the answer, which is an ordinary success. *)
Theorem GET_keeps_entries_with_id (session : option Session) (w : W)
  (entries : list Gmail.MessageRef) :
  authenticated session = true →
  Forall (λ ev, Gmail.rejected ev = false) (events h (ListRoute.GET session) w) →
  Exists (λ ev, Gmail.listed ev = Some entries) (events h (ListRoute.GET session) w) →
  ∃ ms,
    result h (ListRoute.GET session) w = json (MessagesBody ms)
    ∧ enriched_from (List.filter carries_id entries)
        (omap looked (events h (ListRoute.GET session) w)) ms
    ∧ List.map (λ message, Some (id message)) ms
      = List.map Gmail.ref_id (List.filter carries_id entries).
Proof.
  intros Hauth Hnone Hlisted.
  destruct session as [s|]; [|done]. simpl in Hauth.
  unfold events, result in *.
  destruct (GET_run s w Hauth) as [[Hrej _]|[_ (entries' & _ & Hall & Hms)]].
  - exfalso. apply Exists_exists in Hrej as (ev & Hin & Hev).
    rewrite Forall_forall in Hnone. specialize (Hnone ev Hin). congruence.
  - apply Exists_exists in Hlisted as (ev & Hin & Hev).
    rewrite Forall_forall in Hall. destruct (Hall ev Hin) as [Hn|Hs]; [congruence|].
    assert (entries' = entries) as -> by congruence.
    destruct Hms as (ms & Hr & Hms). exists ms.
    split; [done|]. split; [done|]. by eapply enriched_from_ids.
Qed.

End ListRouteTheorems.

Example GET_inbox :
  result (provider inbox) (ListRoute.GET signed_in) tt
  = json (MessagesBody [message1; message2]).
Proof. vm_compute. reflexivity. Qed.

Example GET_inbox_lookup_fails :
  result (provider inbox_lookup_fails) (ListRoute.GET signed_in) tt
  = json_status (ErrorBody (lit "Failed to load messages")) 500
  ∧ performed (provider inbox_lookup_fails) (ListRoute.GET signed_in) tt
    = [ Gmail.CreateClient (lit "token") None;
        Gmail.MessagesList [lit "INBOX"] (lit "is:unread") 15;
        Gmail.MessagesGet (lit "m1") (lit "metadata") ListRoute.METADATA_HEADERS;
        Gmail.MessagesGet (lit "m2") (lit "metadata") ListRoute.METADATA_HEADERS ].
Proof. split; vm_compute; reflexivity. Qed.

Lemma GET_fails_as_a_whole_witness :
  result (provider inbox_lookup_fails) (ListRoute.GET signed_in) tt = ListRoute.failed
  ∧ status ListRoute.failed = 500
  ∧ body ListRoute.failed = ErrorBody (lit "Failed to load messages").
Proof.
  apply (GET_fails_as_a_whole (provider inbox_lookup_fails) signed_in tt).
  - reflexivity.
  - vm_compute. do 3 apply Exists_cons_tl. apply Exists_cons_hd. reflexivity.
Defined.

Lemma GET_keeps_entries_with_id_witness :
  ∃ ms,
    result (provider inbox) (ListRoute.GET signed_in) tt = json (MessagesBody ms)
    ∧ enriched_from (List.filter carries_id (unread inbox))
        (omap looked (events (provider inbox) (ListRoute.GET signed_in) tt)) ms
    ∧ List.map (λ message, Some (id message)) ms
      = List.map Gmail.ref_id (List.filter carries_id (unread inbox)).
Proof.
  apply (GET_keeps_entries_with_id (provider inbox) signed_in tt (unread inbox)).
  - reflexivity.
  - vm_compute. repeat constructor.
  - vm_compute. apply Exists_cons_tl, Exists_cons_hd. reflexivity.
Defined.

(** ** The reply route *)

Section ReplyRouteTheorems.
Context {W : Type}.
Variable h : ∀ o : Gmail.Op, W → Gmail.Ar o * W.

(** The four ways a run of the route goes for an authenticated caller with a
    complete request: each call is made only when the one before it resolved,
    and the response is the success only when all three did. *)
Lemma POST_run (s : Session) (p : ReplyPayload) (w : W) :
  truthy (accessToken s) = true →
  ReplyRoute.incomplete p = false →
  let r := run h (ReplyRoute.POST (Some s) p) w in
  ∃ raw,
    let create := Gmail.CreateClient (nullish (accessToken s) []) (refreshToken s) in
    let send := Gmail.MessagesSend raw (nullish (rp_threadId p) []) in
    let modify := Gmail.MessagesModify (nullish (rp_messageId p) [])
                    [lit "UNREAD"] [lit "STARRED"] in
    (r.1.2 = [existT create (Rejected tt)] ∧ r.1.1 = ReplyRoute.failed)
    ∨ (r.1.2 = [existT create (Resolved tt); existT send (Rejected tt)]
       ∧ r.1.1 = ReplyRoute.failed)
    ∨ (r.1.2 = [existT create (Resolved tt); existT send (Resolved tt);
                existT modify (Rejected tt)]
       ∧ r.1.1 = ReplyRoute.failed)
    ∨ (r.1.2 = [existT create (Resolved tt); existT send (Resolved tt);
                existT modify (Resolved tt)]
       ∧ r.1.1 = json OkBody).
Proof.
  intros Hs Hp. unfold ReplyRoute.POST. rewrite Hs, Hp. simpl.
  eexists.
  destruct (h (Gmail.CreateClient _ _) w) as [[[]|[]] w1]; simpl; [|by left].
  destruct (h (Gmail.MessagesSend _ _) w1) as [[[]|[]] w2]; simpl; [|by right; left].
  destruct (h (Gmail.MessagesModify _ _ _) w2) as [[[]|[]] w3]; simpl.
  - by right; right; right.
  - by right; right; left.
Qed.

(** A rejected call of any kind, the submission included, ends in the same
    response: the mutation failure is not told apart. *)
Lemma POST_any_failure (session : option Session) (p : ReplyPayload) (w : W) :
  authenticated session = true →
  ReplyRoute.incomplete p = false →
  Exists (λ ev, Gmail.rejected ev = true) (events h (ReplyRoute.POST session p) w) →
  result h (ReplyRoute.POST session p) w = ReplyRoute.failed.
Proof.
  intros Hauth Hp Hrej. destruct session as [s|]; [|done]. simpl in Hauth.
  unfold events, result in *.
  destruct (POST_run s p w Hauth Hp) as (raw & Hrun). cbv zeta in Hrun.
  destruct Hrun as [[Hev Hr]|[[Hev Hr]|[[Hev Hr]|[Hev Hr]]]];
    rewrite Hev in *; rewrite Hr; try done.
  exfalso. repeat (apply Exists_cons in Hrej as [?|Hrej]; [done|]).
  by apply Exists_nil in Hrej.
Qed.

(** C2, as the route has it. The label mutation is awaited inside the [try]
    block of the send: when the reply has been submitted and the mutation then
    throws, the route answers with status 500 and "Failed to send reply", the
    response of every run in which a call threw, a failed submission
    included, and not with the success. The reply stays sent: the mutation is
    the last call of the run, nothing undoes or repeats anything after it. *)
Theorem POST_modify_failure (session : option Session) (p : ReplyPayload) (w : W) :
  authenticated session = true →
  ReplyRoute.incomplete p = false →
  Exists (λ ev, Gmail.modify_rejected ev = true) (events h (ReplyRoute.POST session p) w) →
  result h (ReplyRoute.POST session p) w = ReplyRoute.failed
  ∧ status ReplyRoute.failed = 500
  ∧ body ReplyRoute.failed = ErrorBody (lit "Failed to send reply")
  ∧ Exists (λ ev, Gmail.send_resolved ev = true) (events h (ReplyRoute.POST session p) w)
  ∧ (∃ evs ev, events h (ReplyRoute.POST session p) w = evs ++ [ev]
               ∧ Gmail.modify_rejected ev = true)
  ∧ ∀ w', Exists (λ ev, Gmail.rejected ev = true)
            (events h (ReplyRoute.POST session p) w') →
          result h (ReplyRoute.POST session p) w' = ReplyRoute.failed.
Proof.
  intros Hauth Hp Hmod.
  assert (Hany := λ w', POST_any_failure session p w' Hauth Hp).
  destruct session as [s|]; [|done]. simpl in Hauth.
  unfold events, result in *.
  destruct (POST_run s p w Hauth Hp) as (raw & Hrun). cbv zeta in Hrun.
  destruct Hrun as [[Hev Hr]|[[Hev Hr]|[[Hev Hr]|[Hev Hr]]]];
    rewrite Hev in *; rewrite Hr.
  - exfalso. apply Exists_cons in Hmod as [?|Hmod%Exists_nil]; done.
  - exfalso. repeat (apply Exists_cons in Hmod as [?|Hmod]; [done|]).
    by apply Exists_nil in Hmod.
  - repeat split; [by apply Exists_cons_tl, Exists_cons_hd| |done].
    eexists [_; _], _. by split.
  - exfalso. repeat (apply Exists_cons in Hmod as [?|Hmod]; [done|]).
    by apply Exists_nil in Hmod.
Qed.

End ReplyRouteTheorems.

Lemma POST_modify_failure_witness :
  result (provider inbox_modify_fails)
    (ReplyRoute.POST signed_in (reply_to_message1 (lit "Thanks"))) tt
  = ReplyRoute.failed
  ∧ Exists (λ ev, Gmail.send_resolved ev = true)
      (events (provider inbox_modify_fails)
         (ReplyRoute.POST signed_in (reply_to_message1 (lit "Thanks"))) tt).
Proof.
  pose proof (POST_modify_failure (provider inbox_modify_fails) signed_in
                (reply_to_message1 (lit "Thanks")) tt) as Hthm.
  destruct Hthm as (Hfailed & _ & _ & Hsent & _).
  - reflexivity.
  - reflexivity.
  - vm_compute. do 2 apply Exists_cons_tl. apply Exists_cons_hd. reflexivity.
  - split; [exact Hfailed|exact Hsent].
Defined.

(** C2, as stated, fails: the reply to [message1] is submitted, the label
    mutation throws, and the response is the failure, not the success. *)
Lemma modify_failure_is_not_a_success :
  let r := run (provider inbox_modify_fails)
             (ReplyRoute.POST signed_in (reply_to_message1 (lit "Thanks"))) tt in
  Exists (λ ev, Gmail.send_resolved ev = true) r.1.2
  ∧ Exists (λ ev, Gmail.modify_rejected ev = true) r.1.2
  ∧ r.1.1 ≠ json OkBody
  ∧ status r.1.1 = 500
  ∧ Wire.ok r.1.1 = false.
Proof.
  vm_compute. split; [|split; [|split; [|split]]].
  - apply Exists_cons_tl, Exists_cons_hd. reflexivity.
  - do 2 apply Exists_cons_tl. apply Exists_cons_hd. reflexivity.
  - discriminate.
  - reflexivity.
  - reflexivity.
Qed.

(** ** The page *)

Lemma filter_all {A} (P : A → Prop) `{∀ x, Decision (P x)} (l : list A) :
  Forall P l → filter P l = l.
Proof.
  induction 1 as [|x l Hx _ IH]; [done|].
  rewrite filter_cons. destruct (decide (P x)); [by rewrite IH|done].
Qed.

(** Removing by identifier removes one element when identifiers are unique. *)
Lemma filter_other_ids (l1 l2 : list GmailMessage) (message : GmailMessage) :
  NoDup (List.map id (l1 ++ message :: l2)) →
  filter (λ item, id item ≠ id message) (l1 ++ message :: l2) = l1 ++ l2.
Proof.
  intros Hnodup.
  rewrite List.map_app in Hnodup. simpl in Hnodup.
  apply NoDup_app in Hnodup as (_ & Hl1 & Hnodup).
  apply NoDup_cons in Hnodup as [Hl2 _].
  rewrite filter_app, filter_cons.
  destruct (decide (id message ≠ id message)) as [?|_]; [done|].
  rewrite !filter_all; [done| |].
  - apply Forall_forall. intros item Hin Heq. apply Hl2.
    rewrite <- Heq. apply list_elem_of_In, in_map, list_elem_of_In, Hin.
  - apply Forall_forall. intros item Hin Heq. apply (Hl1 (id item)).
    + apply list_elem_of_In, in_map, list_elem_of_In, Hin.
    + rewrite Heq. by left.
Qed.

Section PageTheorems.
Context {W : Type}.
Variable h : ∀ o : Page.Op, W → Page.Ar o * W.

(** What [handleSendReply] asks, with a draft that is present and non-empty. *)
Lemma handleSendReply_events (drafts : gmap jsstring jsstring) (message : GmailMessage)
  (st : Page.State) (w : W) :
  truthy (drafts !! id message) = true →
  ∃ p answer,
    rp_body p = drafts !! id message
    ∧ events h (Page.handleSendReply drafts message st) w
      = [existT (Page.FetchReply p) answer].
Proof.
  intros Hd. unfold events, Page.handleSendReply. rewrite Hd. simpl.
  destruct (h (Page.FetchReply _) w) as [answer w1]. simpl.
  eexists. exists answer. split; [|reflexivity]. reflexivity.
Qed.

(** C9. When the reply request for a message is accepted, the handler removes
    the entries with the identifier of that message from the visible
    collection and nothing else; identifiers being unique, that is exactly the
    message answered: what stood before and after it is still there,
    unchanged and in the same order. *)
Theorem send_success_removes_that_message (drafts : gmap jsstring jsstring)
  (message : GmailMessage) (st : Page.State) (w : W) (l1 l2 : list GmailMessage) :
  Exists (λ ev, reply_accepted ev = true)
    (events h (Page.handleSendReply drafts message st) w) →
  Page.messages st = l1 ++ message :: l2 →
  NoDup (List.map id (Page.messages st)) →
  let st' := result h (Page.handleSendReply drafts message st) w in
  Page.messages st' = filter (λ item, id item ≠ id message) (Page.messages st)
  ∧ Page.messages st' = l1 ++ l2.
Proof.
  intros Hok Hst Hnodup st'.
  assert (Hfilter : Page.messages st'
                    = filter (λ item, id item ≠ id message) (Page.messages st)).
  { subst st'. unfold events, result, Page.handleSendReply in *.
    destruct (truthy (drafts !! id message)); simpl in *;
      [|by apply Exists_nil in Hok].
    destruct (h (Page.FetchReply _) w) as [[r|e] w1]; simpl in *.
    - apply Exists_cons in Hok as [Hok|Hok%Exists_nil]; [|done].
      simpl in Hok. by rewrite Hok.
    - apply Exists_cons in Hok as [Hok|Hok%Exists_nil]; done. }
  split; [done|]. rewrite Hfilter, Hst. apply filter_other_ids. by rewrite <- Hst.
Qed.

(** A request that is refused, or that does not come back, leaves the
    collection as it was. *)
Lemma send_failure_keeps_messages (drafts : gmap jsstring jsstring)
  (message : GmailMessage) (st : Page.State) (w : W) :
  Forall (λ ev, reply_accepted ev = false)
    (events h (Page.handleSendReply drafts message st) w) →
  Page.messages (result h (Page.handleSendReply drafts message st) w)
  = Page.messages st.
Proof.
  unfold events, result, Page.handleSendReply.
  destruct (truthy (drafts !! id message)); simpl; [|done].
  destruct (h (Page.FetchReply _) w) as [[r|e] w1]; simpl; [|done].
  intros [Hr _]%Forall_cons. simpl in Hr. by rewrite Hr.
Qed.

(** Answer-all never asks to send a draft that is empty after trimming. *)
Lemma answer_each_carries_text (drafts : gmap jsstring jsstring)
  (ms : list GmailMessage) (st : Page.State) (w : W) :
  Forall (λ ev, carries_text ev = true) (events h (Page.answer_each drafts ms st) w).
Proof.
  unfold events. revert st w. induction ms as [|message ms IH]; intros st w; simpl.
  - constructor.
  - destruct (truthy (trim <$> drafts !! id message)) eqn:Htext; simpl; [|apply IH].
    rewrite run_bind. simpl. apply Forall_app. split; [|apply IH].
    assert (Hd : truthy (drafts !! id message) = true).
    { destruct (drafts !! id message) as [[|c d]|]; done. }
    destruct (handleSendReply_events drafts message st w Hd) as (p & answer & Hp & Hev).
    unfold events in Hev. rewrite Hev. constructor; [|constructor].
    simpl. by rewrite Hp.
Qed.

End PageTheorems.

(** C1, as the page and the route have it. A draft that is absent or the
    empty string is not sent: [handleSendReply] returns at once, without a
    request and with the state as it was, so that nothing is reported either;
    the reply route answers a body that is absent or empty with the 400
    validation response, without a provider call. Neither of the two trims.
    A draft of white space only is kept away by the callers: answer-all asks
    to send only drafts that are not empty after trimming, and the send button
    of a message with such a draft is disabled. *)
Theorem empty_draft_is_not_sent (drafts : gmap jsstring jsstring)
  (message : GmailMessage) (st : Page.State) (session : option Session)
  (p : ReplyPayload) :
  truthy (drafts !! id message) = false →
  authenticated session = true →
  truthy (rp_body p) = false →
  Page.handleSendReply drafts message st = Ret st
  ∧ ReplyRoute.POST session p = Ret ReplyRoute.missing_fields
  ∧ status ReplyRoute.missing_fields = 400
  ∧ (∀ (W : Type) (h : ∀ o, W → Page.Ar o * W) (w : W),
       Forall (λ ev, carries_text ev = true) (events h (Page.handleAutoAnswerAll st) w))
  ∧ (truthy (trim <$> Page.replyDrafts st !! id message) = false →
     Page.send_disabled st message = true).
Proof.
  intros Hdraft Hauth Hbody. split; [|split; [|split; [|split]]].
  - unfold Page.handleSendReply. by rewrite Hdraft.
  - destruct session as [s|]; [|done]. simpl in Hauth.
    unfold ReplyRoute.POST, ReplyRoute.incomplete.
    rewrite Hauth, Hbody. simpl. by rewrite !orb_true_r.
  - done.
  - intros W h w. apply answer_each_carries_text.
  - intros Hblank. unfold Page.send_disabled. rewrite Hblank. apply orb_true_r.
Qed.

Lemma empty_draft_is_not_sent_witness :
  Page.handleSendReply (<[lit "m1" := []]> (Page.replyDrafts loaded)) message1 loaded
  = Ret loaded
  ∧ ReplyRoute.POST signed_in (reply_to_message1 []) = Ret ReplyRoute.missing_fields.
Proof.
  pose proof (empty_draft_is_not_sent
                (<[lit "m1" := []]> (Page.replyDrafts loaded)) message1 loaded
                signed_in (reply_to_message1 [])) as Hthm.
  destruct Hthm as (Hpage & Hroute & _).
  - vm_compute. reflexivity.
  - reflexivity.
  - reflexivity.
  - split; [exact Hpage|exact Hroute].
Defined.

(** C1, as stated, fails. The draft for [message1] is three spaces, empty
    after trimming. [handleSendReply] asks the route to send it, the route
    submits it to the provider and relabels the message, and the page reports
    the reply as sent and takes the message off the list. *)
Lemma blank_draft_is_sent :
  trim blank = []
  ∧ result (provider inbox) (ReplyRoute.POST signed_in (reply_to_message1 blank)) tt
    = json OkBody
  ∧ Page.replyDrafts loaded_blank_draft !! id message1 = Some blank
  ∧ let r := run (Wire.serve (provider inbox) signed_in)
               (Page.handleSendReply (Page.replyDrafts loaded_blank_draft)
                  message1 loaded_blank_draft)
               (tt, []) in
    List.map (λ ev, projT1 ev) r.1.2 = [Page.FetchReply (reply_to_message1 blank)]
    ∧ r.2.2 = [ Gmail.CreateClient (lit "token") None;
                Gmail.MessagesSend
                  (ReplyRoute.encodeEmail
                     {| ReplyRoute.to := lit "alex@example.com";
                        ReplyRoute.subject := lit "Re: Invoice";
                        ReplyRoute.body := blank;
                        ReplyRoute.inReplyTo := None |})
                  (lit "t1");
                Gmail.MessagesModify (lit "m1") [lit "UNREAD"] [lit "STARRED"] ]
    ∧ Page.error r.1.1 = None
    ∧ Page.success r.1.1 = Some (lit "Reply sent to Alex Doe")
    ∧ Page.messages r.1.1 = [message2].
Proof. vm_compute. repeat split. Qed.

Lemma send_success_removes_that_message_witness :
  let st' := result (Wire.serve (provider inbox) signed_in)
               (Page.handleSendReply (Page.replyDrafts loaded) message1 loaded)
               (tt, []) in
  Page.messages st' = filter (λ item, id item ≠ id message1) (Page.messages loaded)
  ∧ Page.messages st' = [] ++ [message2].
Proof.
  apply (send_success_removes_that_message (Wire.serve (provider inbox) signed_in)
           (Page.replyDrafts loaded) message1 loaded (tt, []) [] [message2]).
  - vm_compute. apply Exists_cons_hd. reflexivity.
  - reflexivity.
  - apply (bool_decide_unpack _). vm_compute. exact I.
Defined.

(** The list answers with two unread messages; the reply to the first is
    accepted; the visible collection is then the second message alone. *)
Example reply_to_first_of_two :
  let serve := Wire.serve (provider inbox) signed_in in
  let st0 := {| Page.messages := []; Page.loadingMessages := false;
                Page.sendingId := None; Page.replyDrafts := ∅;
                Page.error := None; Page.success := None |} in
  let st1 := result serve (Page.handleRefresh true st0) (tt, []) in
  let st2 := result serve (Page.handleSendReply (Page.replyDrafts st1) message1 st1)
               (tt, []) in
  st1 = loaded
  ∧ Page.messages st2 = [message2]
  ∧ Page.error st2 = None.
Proof. vm_compute. repeat split. Qed.

(** The page when the label mutation throws after the reply was submitted: it
    shows the error of the route and keeps the message, although the provider
    has sent the reply. *)
Example modify_failure_on_the_page :
  let r := run (Wire.serve (provider inbox_modify_fails) signed_in)
             (Page.handleSendReply (Page.replyDrafts loaded) message1 loaded)
             (tt, []) in
  Page.error r.1.1 = Some (lit "Failed to send reply")
  ∧ Page.success r.1.1 = None
  ∧ Page.messages r.1.1 = [message1; message2]
  ∧ List.map (λ o, match o with Gmail.MessagesSend _ _ => true | _ => false end) r.2.2
    = [false; true; false].
Proof. vm_compute. repeat split. Qed.

(** ** Parsing the sender *)

Lemma drop_while_split (p : N → bool) (s : jsstring) :
  ∃ w, Forall (λ c, p c = true) w ∧ s = w ++ drop_while p s.
Proof.
  induction s as [|c s (w & Hw & IH)]; simpl.
  - by exists [].
  - destruct (p c) eqn:Hc.
    + exists (c :: w). split; [by constructor|]. simpl. by rewrite <- IH.
    + by exists [].
Qed.

Lemma drop_while_head (p : N → bool) (s : jsstring) (c : N) (s' : jsstring) :
  drop_while p s = c :: s' → p c = false.
Proof.
  induction s as [|x s IH]; simpl; [done|].
  destruct (p x) eqn:Hx; [done|]. by intros [= <- _].
Qed.

Lemma drop_while_suffix (p : N → bool) (P : N → Prop) (s : jsstring) :
  Forall P s → Forall P (drop_while p s).
Proof.
  induction 1 as [|c s Hc Hs IH]; simpl; [done|].
  destruct (p c); [done|by constructor].
Qed.

(** A string is what [trimEnd] keeps of it followed by white space. *)
Lemma trimEnd_split (s : jsstring) :
  ∃ w, Forall (λ c, is_space c = true) w ∧ s = trimEnd s ++ w.
Proof.
  destruct (drop_while_split is_space (rev s)) as (w & Hw & Hs).
  exists (rev w). split; [by apply Forall_rev|].
  unfold trimEnd. by rewrite <- rev_app_distr, <- Hs, rev_involutive.
Qed.

Lemma trimEnd_app_space (s w : jsstring) :
  Forall (λ c, is_space c = true) w → trimEnd (s ++ w) = trimEnd s.
Proof.
  intros Hw. unfold trimEnd. rewrite rev_app_distr.
  rewrite drop_while_app_all; [done|by apply Forall_rev].
Qed.

Lemma trimStart_app_space (s w : jsstring) :
  Forall (λ c, is_space c = true) w →
  ∃ w', Forall (λ c, is_space c = true) w' ∧ trimStart (s ++ w) = trimStart s ++ w'.
Proof.
  intros Hw. unfold trimStart. induction s as [|c s IH]; simpl.
  - exists []. split; [done|]. rewrite <- (app_nil_r w) at 1.
    by rewrite drop_while_app_all.
  - destruct (is_space c); [done|]. by exists w.
Qed.

Lemma trim_app_space (s w : jsstring) :
  Forall (λ c, is_space c = true) w → trim (s ++ w) = trim s.
Proof.
  intros Hw. unfold trim.
  destruct (trimStart_app_space s w Hw) as (w' & Hw' & ->).
  by apply trimEnd_app_space.
Qed.

Lemma remove_all_app_space (s w : jsstring) :
  Forall (λ c, is_space c = true) w →
  remove_all 34 (s ++ w) = remove_all 34 s ++ w.
Proof.
  intros Hw. unfold remove_all. rewrite List.filter_app. f_equal.
  induction Hw as [|c w Hc _ IH]; simpl; [done|].
  destruct (c =? 34) eqn:H34; [|by rewrite IH].
  apply N.eqb_eq in H34. by subst c.
Qed.

(** What [trimEnd] keeps does not end with white space. *)
Lemma trimEnd_last (s : jsstring) (c : N) :
  last (trimEnd s) = Some c → is_space c = false.
Proof.
  unfold trimEnd.
  destruct (drop_while is_space (rev s)) as [|x s'] eqn:Hd; [done|].
  simpl. rewrite last_snoc. intros [= <-]. by apply drop_while_head in Hd.
Qed.

Lemma closes_snoc (s : jsstring) : s ≠ [] → ListRoute.closes (s ++ [62]) = false.
Proof. destruct s as [|c [|c' s]]; done. Qed.

(** The lazy group of the address takes everything up to the final [>]. *)
Lemma angle_body_address (acc a : jsstring) :
  a ≠ [] →
  Forall (λ c, is_line_terminator c = false) a →
  ListRoute.angle_body acc (a ++ [62]) = Some (rev acc ++ a).
Proof.
  intros Hne Ha. revert acc. induction Ha as [|c a Hc Ha IH]; intros acc; [done|].
  simpl. rewrite Hc. destruct a as [|c' a].
  - simpl. done.
  - rewrite closes_snoc by done. rewrite IH by done. simpl. by rewrite <- app_assoc.
Qed.

(** The optional part does not match inside the display name. *)
Lemma angle_part_inside (n rest : jsstring) :
  n ≠ [] →
  Forall (λ c, c ≠ 60) n →
  (∀ c, last n = Some c → is_space c = false) →
  ListRoute.angle_part (n ++ rest) = None.
Proof.
  intros Hne Hn. unfold ListRoute.angle_part.
  induction Hn as [|c n Hc Hn IH]; intros Hlast; [done|]. simpl.
  destruct (is_space c) eqn:Hsp.
  - destruct n as [|c' n]; [by rewrite (Hlast c) in Hsp|].
    apply IH; [done|]. intros x Hx. apply Hlast. by rewrite last_cons_cons.
  - by apply N.eqb_neq in Hc as ->.
Qed.

(** The optional part matches where the white space before [<] begins. *)
Lemma angle_part_address (w a : jsstring) :
  Forall (λ c, is_space c = true) w →
  a ≠ [] →
  Forall (λ c, is_line_terminator c = false) a →
  ListRoute.angle_part (w ++ 60 :: a ++ [62]) = Some a.
Proof.
  intros Hw Hne Ha. unfold ListRoute.angle_part.
  rewrite drop_while_app_all by done. simpl.
  by rewrite angle_body_address.
Qed.

Lemma sender_match_display_name (acc n w a : jsstring) :
  Forall (λ c, is_line_terminator c = false) n →
  Forall (λ c, c ≠ 60) n →
  (∀ c, last n = Some c → is_space c = false) →
  Forall (λ c, is_space c = true) w →
  a ≠ [] →
  Forall (λ c, is_line_terminator c = false) a →
  ListRoute.sender_match_from acc (n ++ w ++ 60 :: a ++ [62])
  = Some (rev acc ++ n, Some a).
Proof.
  intros Hlt. revert acc. induction Hlt as [|c n Hc Hlt IH]; intros acc Hn Hlast Hw Hne Ha.
  - simpl. destruct (w ++ 60 :: a ++ [62]) eqn:Hs;
      [by destruct w|rewrite <- Hs].
    unfold ListRoute.sender_match_from.
    rewrite Hs at 1. rewrite <- Hs. rewrite angle_part_address by done.
    by rewrite app_nil_r.
  - apply Forall_cons in Hn as [Hc60 Hn].
    change ((c :: n) ++ w ++ 60 :: a ++ [62]) with (c :: (n ++ w ++ 60 :: a ++ [62])).
    simpl.
    change (c :: n ++ w ++ 60 :: a ++ [62]) with ((c :: n) ++ w ++ 60 :: a ++ [62]).
    rewrite angle_part_inside; [|done|by constructor|done].
    rewrite Hc. rewrite IH; try done.
    + simpl. by rewrite <- app_assoc.
    + intros x Hx. destruct n as [|c' n]; [done|]. apply Hlast. by rewrite last_cons_cons.
Qed.

(** Without [<] in the string the optional part matches nowhere. *)
Lemma angle_part_no_angle (s : jsstring) :
  Forall (λ c, c ≠ 60) s → ListRoute.angle_part s = None.
Proof.
  intros Hs. unfold ListRoute.angle_part.
  apply (drop_while_suffix is_space) in Hs.
  destruct (drop_while is_space s) as [|c s']; [done|].
  apply Forall_cons in Hs as [Hc _]. by apply N.eqb_neq in Hc as ->.
Qed.

Lemma sender_match_no_angle (acc s : jsstring) :
  Forall (λ c, c ≠ 60) s →
  ListRoute.sender_match_from acc s
  = if existsb is_line_terminator s then None else Some (rev acc ++ s, None).
Proof.
  intros Hs. revert acc. induction Hs as [|c s Hc Hs IH]; intros acc.
  - simpl. by rewrite app_nil_r.
  - simpl. rewrite angle_part_no_angle by by constructor.
    destruct (is_line_terminator c); [done|]. simpl.
    rewrite IH. destruct (existsb is_line_terminator s); [done|].
    simpl. by rewrite <- app_assoc.
Qed.

(** C3, as the route has it. A header [n <a>], with a display name [n] free
    of [<] and of line terminators and an address [a] that is not empty and
    free of line terminators, gives the address [a] trimmed and, as name, [n]
    with every quote character removed and then trimmed, or null if nothing
    is left. A header [h] that is not empty and holds no [<] gives a null name
    and, as address, [h] trimmed, or [h] as it is when it holds a line
    terminator. *)
Theorem parseEmailAddress_shapes (n a h : jsstring) :
  Forall (λ c, is_line_terminator c = false) n →
  Forall (λ c, c ≠ 60) n →
  a ≠ [] →
  Forall (λ c, is_line_terminator c = false) a →
  h ≠ [] →
  Forall (λ c, c ≠ 60) h →
  ListRoute.parseEmailAddress (Some (n ++ lit " <" ++ a ++ lit ">"))
  = {| ListRoute.p_name := non_empty (trim (remove_all 34 n));
       ListRoute.p_address := Some (trim a) |}
  ∧ ListRoute.parseEmailAddress (Some h)
    = {| ListRoute.p_name := None;
         ListRoute.p_address :=
           Some (if existsb is_line_terminator h then h else trim h) |}.
Proof.
  intros Hn Hn60 Hane Ha Hhne Hh. split.
  - destruct (trimEnd_split n) as (w & Hw & Hsplit).
    assert (Hmatch : ListRoute.sender_match (n ++ lit " <" ++ a ++ lit ">")
                     = Some (trimEnd n, Some a)).
    { rewrite Hsplit at 1. rewrite Hsplit in Hn, Hn60.
      apply Forall_app in Hn as [Hn _]. apply Forall_app in Hn60 as [Hn60 _].
      change (lit " <" ++ a ++ lit ">") with ([32] ++ 60 :: a ++ [62]).
      rewrite <- app_assoc, (app_assoc w).
      unfold ListRoute.sender_match.
      rewrite sender_match_display_name; try done.
      - apply trimEnd_last.
      - apply Forall_app. split; [done|]. by constructor. }
    unfold ListRoute.parseEmailAddress.
    assert (Htruthy : truthy (Some (n ++ lit " <" ++ a ++ lit ">")) = true)
      by by destruct n.
    rewrite Htruthy. simpl negb. cbv iota.
    unfold nullish at 1. rewrite Hmatch.
    assert (Hname : trim (remove_all 34 (trimEnd n)) = trim (remove_all 34 n)).
    { rewrite Hsplit at 2. by rewrite remove_all_app_space, trim_app_space. }
    rewrite Hname. destruct a as [|c a]; [done|]. simpl.
    by destruct (trim (remove_all 34 n)).
  - unfold ListRoute.parseEmailAddress, ListRoute.sender_match.
    destruct h as [|c h]; [done|]. simpl truthy. simpl negb. cbv iota.
    unfold nullish at 1. rewrite sender_match_no_angle by done.
    by destruct (existsb is_line_terminator (c :: h)).
Qed.

Lemma parseEmailAddress_shapes_witness :
  ListRoute.parseEmailAddress
    (Some ((dquote ++ lit "Quoted Name" ++ dquote) ++ lit " <" ++ lit "a@b.com" ++ lit ">"))
  = {| ListRoute.p_name :=
         non_empty (trim (remove_all 34 (dquote ++ lit "Quoted Name" ++ dquote)));
       ListRoute.p_address := Some (trim (lit "a@b.com")) |}
  ∧ ListRoute.parseEmailAddress (Some (lit "alex@example.com"))
    = {| ListRoute.p_name := None;
         ListRoute.p_address :=
           Some (if existsb is_line_terminator (lit "alex@example.com")
                 then lit "alex@example.com" else trim (lit "alex@example.com")) |}.
Proof.
  apply (parseEmailAddress_shapes (dquote ++ lit "Quoted Name" ++ dquote)
           (lit "a@b.com") (lit "alex@example.com")).
  - apply (bool_decide_unpack _). vm_compute. exact I.
  - apply (bool_decide_unpack _). vm_compute. exact I.
  - discriminate.
  - apply (bool_decide_unpack _). vm_compute. exact I.
  - discriminate.
  - apply (bool_decide_unpack _). vm_compute. exact I.
Defined.

(** The three headers of the specification. *)
Example parse_display_name :
  ListRoute.parseEmailAddress (Some (lit "Alex Doe <alex@example.com>"))
  = {| ListRoute.p_name := Some (lit "Alex Doe");
       ListRoute.p_address := Some (lit "alex@example.com") |}.
Proof. vm_compute. reflexivity. Qed.

Example parse_bare_address :
  ListRoute.parseEmailAddress (Some (lit "alex@example.com"))
  = {| ListRoute.p_name := None;
       ListRoute.p_address := Some (lit "alex@example.com") |}.
Proof. vm_compute. reflexivity. Qed.

Example parse_quoted_name :
  ListRoute.parseEmailAddress
    (Some (dquote ++ lit "Quoted Name" ++ dquote ++ lit " <a@b.com>"))
  = {| ListRoute.p_name := Some (lit "Quoted Name");
       ListRoute.p_address := Some (lit "a@b.com") |}.
Proof. vm_compute. reflexivity. Qed.

(** Where the parser leaves the words of the specification. *)
Example parse_line_terminator :
  ListRoute.parseEmailAddress (Some (lit " a b" ++ nl ++ lit "c "))
  = {| ListRoute.p_name := None;
       ListRoute.p_address := Some (lit " a b" ++ nl ++ lit "c ") |}.
Proof. vm_compute. reflexivity. Qed.

Example parse_empty_header :
  ListRoute.parseEmailAddress (Some [])
  = {| ListRoute.p_name := None; ListRoute.p_address := None |}.
Proof. reflexivity. Qed.

(** C3, as stated, fails. The display name [unquoted] is Ann, then AJ between
    quote characters, then Lee: no quote character encloses it, and the parser
    removes the two around AJ. The display name [quoted] is the same between
    quote characters, the inner ones escaped with a backslash: the parser
    removes the inner ones as well. And a header without angle-bracket address
    does not become the address whole: the white space around it is dropped. *)
Lemma parse_strips_inner_quotes :
  let backslash := [92] in
  let unquoted := lit "Ann " ++ dquote ++ lit "AJ" ++ dquote ++ lit " Lee" in
  let quoted := dquote ++ lit "Ann " ++ backslash ++ dquote ++ lit "AJ"
                ++ backslash ++ dquote ++ lit " Lee" ++ dquote in
  ListRoute.p_name (ListRoute.parseEmailAddress (Some (unquoted ++ lit " <a@b.com>")))
  = Some (lit "Ann AJ Lee")
  ∧ strip_enclosing_quotes unquoted = unquoted
  ∧ ListRoute.p_name (ListRoute.parseEmailAddress (Some (unquoted ++ lit " <a@b.com>")))
    ≠ Some (trim (strip_enclosing_quotes unquoted))
  ∧ ListRoute.p_name (ListRoute.parseEmailAddress (Some (quoted ++ lit " <a@b.com>")))
    = Some (lit "Ann " ++ backslash ++ lit "AJ" ++ backslash ++ lit " Lee")
  ∧ strip_enclosing_quotes quoted
    = lit "Ann " ++ backslash ++ dquote ++ lit "AJ" ++ backslash ++ dquote ++ lit " Lee"
  ∧ ListRoute.p_name (ListRoute.parseEmailAddress (Some (quoted ++ lit " <a@b.com>")))
    ≠ Some (trim (strip_enclosing_quotes quoted))
  ∧ ListRoute.p_address (ListRoute.parseEmailAddress (Some (lit " alex@example.com ")))
    = Some (lit "alex@example.com")
  ∧ ListRoute.p_address (ListRoute.parseEmailAddress (Some (lit " alex@example.com ")))
    ≠ Some (lit " alex@example.com ").
Proof. vm_compute. repeat split; discriminate. Qed.

(** * Further properties *)

(** ** The encoding of the outgoing message *)

Lemma triples_ind (P : list N → Prop) :
  P [] → (∀ a, P [a]) → (∀ a b, P [a; b]) →
  (∀ a b c l, P l → P (a :: b :: c :: l)) →
  ∀ l, P l.
Proof.
  intros H0 H1 H2 H3 l.
  assert (H : P l ∧ (∀ a, P (a :: l)) ∧ (∀ a b, P (a :: b :: l))).
  { induction l as [|c l (IH0 & IH1 & IH2)]; [by repeat split|].
    repeat split; [apply IH1|intros a; apply IH2|].
    intros a b. by apply H3. }
  apply H.
Qed.

Lemma strip_padding_app (s pad : jsstring) :
  Forall (λ c, c ≠ 61) s → Forall (λ c, c = 61) pad →
  ReplyRoute.strip_padding (s ++ pad) = s.
Proof.
  intros Hs Hpad. unfold ReplyRoute.strip_padding. rewrite rev_app_distr.
  rewrite drop_while_app_all.
  - destruct (rev s) as [|c s'] eqn:Hrev; simpl.
    + apply (f_equal (@rev N)) in Hrev. by rewrite rev_involutive in Hrev.
    + assert (Hc : c ≠ 61).
      { apply Forall_rev in Hs. rewrite Hrev in Hs. by apply Forall_cons in Hs as [? _]. }
      apply N.eqb_neq in Hc. rewrite Hc. simpl.
      by rewrite <- (rev_involutive s), Hrev.
  - apply Forall_rev. eapply Forall_impl; [exact Hpad|].
    intros c ->. reflexivity.
Qed.

Lemma url_digit_safe (n : N) : url_safe (url_digit n) = true.
Proof.
  unfold url_digit, ReplyRoute.base64_digit, url_safe.
  repeat match goal with
         | |- context [if ?b then _ else _] => destruct b eqn:?
         end;
    repeat match goal with
           | H : (_ <? _) = true |- _ => apply N.ltb_lt in H
           | H : (_ <? _) = false |- _ => apply N.ltb_ge in H
           | H : (_ =? _) = true |- _ => apply N.eqb_eq in H
           | H : (_ =? _) = false |- _ => apply N.eqb_neq in H
           end;
    try lia;
    apply orb_true_iff;
    repeat rewrite orb_true_iff; repeat rewrite andb_true_iff;
    repeat rewrite N.leb_le; repeat rewrite N.eqb_eq; lia.
Qed.

(** [base64] writes one character for each group of six bits and then fills
    up with [=]. *)
Lemma base64_sextets (bytes : list N) :
  ∃ pad, Forall (λ c, c = 61) pad
         ∧ ReplyRoute.base64 bytes
           = List.map ReplyRoute.base64_digit (sextets bytes) ++ pad.
Proof.
  induction bytes as [|a|a b|a b c l (pad & Hpad & IH)] using triples_ind.
  - by exists [].
  - exists [61; 61]. split; [by repeat constructor|done].
  - exists [61]. split; [by repeat constructor|done].
  - exists pad. split; [done|].
    change (ReplyRoute.base64 (a :: b :: c :: l))
      with (ReplyRoute.base64_digit (a / 4)
            :: ReplyRoute.base64_digit (a mod 4 * 16 + b / 16)
            :: ReplyRoute.base64_digit (b mod 16 * 4 + c / 64)
            :: ReplyRoute.base64_digit (c mod 64) :: ReplyRoute.base64 l).
    by rewrite IH.
Qed.

Lemma url_safe_not_padding (c : N) : url_safe c = true → c ≠ 61.
Proof. intros Hc ->. done. Qed.

(** The output of [encodeEmail], character by character. *)
Lemma encodeEmail_digits (input : ReplyRoute.EncodedEmailInput) :
  ReplyRoute.encodeEmail input
  = List.map url_digit (sextets (ReplyRoute.utf8 (envelope input))).
Proof.
  change (ReplyRoute.encodeEmail input)
    with (ReplyRoute.strip_padding
            (ReplyRoute.replace_all 47 95
               (ReplyRoute.replace_all 43 45
                  (ReplyRoute.base64 (ReplyRoute.utf8 (envelope input)))))).
  destruct (base64_sextets (ReplyRoute.utf8 (envelope input))) as (pad & Hpad & ->).
  unfold ReplyRoute.replace_all. rewrite !List.map_app.
  assert (Hpad' : List.map (λ c, if c =? 47 then 95 else c)
                    (List.map (λ c, if c =? 43 then 45 else c) pad) = pad).
  { clear -Hpad. induction Hpad as [|c pad -> _ IH]; simpl; [done|]. by rewrite IH. }
  rewrite Hpad', !List.map_map.
  rewrite (List.map_ext _ url_digit).
  - apply strip_padding_app; [|done].
    apply Forall_forall. intros c Hc%list_elem_of_In%in_map_iff.
    destruct Hc as (n & <- & _). apply url_safe_not_padding, (url_digit_safe n).
  - intros n. unfold url_digit.
    destruct (ReplyRoute.base64_digit n =? 43) eqn:H43; [done|done].
Qed.

(** X1. The text [encodeEmail] returns is made of letters, digits, [-] and
    [_] only: no [+], no [/] and no [=] is left in it. *)
Theorem encodeEmail_url_safe (input : ReplyRoute.EncodedEmailInput) :
  Forall (λ c, url_safe c = true) (ReplyRoute.encodeEmail input).
Proof.
  rewrite encodeEmail_digits. apply Forall_forall.
  intros c Hc%list_elem_of_In%in_map_iff. destruct Hc as (n & <- & _).
  apply url_digit_safe.
Qed.

Lemma base64url_value_digit (n : N) : n < 64 → base64url_value (url_digit n) = n.
Proof.
  intros Hn.
  assert (Hall : forallb (λ k, base64url_value (url_digit k) =? k)
                   (List.map N.of_nat (seq 0 64)) = true)
    by (vm_compute; reflexivity).
  rewrite forallb_forall in Hall. apply N.eqb_eq, Hall.
  apply in_map_iff. exists (N.to_nat n). split; [lia|].
  apply list_elem_of_In, elem_of_seq. lia.
Qed.

Lemma sextets_round_trip (bytes : list N) :
  Forall (λ b, b < 256) bytes →
  base64url_decode (List.map url_digit (sextets bytes)) = bytes.
Proof.
  induction bytes as [|a|a b|a b c l IH] using triples_ind.
  - done.
  - intros [Ha _]%Forall_cons. simpl.
    rewrite !base64url_value_digit.
    + f_equal. pose proof (N.div_mod a 4). pose proof (N.mod_upper_bound a 4).
      assert (a mod 4 * 16 / 16 = a mod 4) by (by apply N.div_mul).
      lia.
    + pose proof (N.mod_upper_bound a 4). lia.
    + apply N.Div0.div_lt_upper_bound; lia.
  - intros [Ha [Hb _]%Forall_cons]%Forall_cons. simpl.
    pose proof (N.mod_upper_bound a 4). pose proof (N.mod_upper_bound b 16).
    assert (b / 16 < 16) by (apply N.Div0.div_lt_upper_bound; lia).
    assert (a / 4 < 64) by (apply N.Div0.div_lt_upper_bound; lia).
    rewrite !base64url_value_digit by lia.
    assert ((a mod 4 * 16 + b / 16) / 16 = a mod 4)
      by (rewrite N.add_comm, N.div_add; [rewrite N.div_small; lia|lia]).
    assert ((a mod 4 * 16 + b / 16) mod 16 = b / 16)
      by (rewrite N.add_comm, N.Div0.mod_add; apply N.mod_small; lia).
    assert (b mod 16 * 4 / 4 = b mod 16) by (by apply N.div_mul).
    pose proof (N.div_mod a 4). pose proof (N.div_mod b 16).
    f_equal; [lia|]. f_equal. lia.
  - intros [Ha [Hb [Hc Hl]%Forall_cons]%Forall_cons]%Forall_cons.
    change (sextets (a :: b :: c :: l))
      with (a / 4 :: (a mod 4 * 16 + b / 16) :: (b mod 16 * 4 + c / 64) :: c mod 64
            :: sextets l).
    simpl List.map. simpl base64url_decode. cbv zeta.
    pose proof (N.mod_upper_bound a 4). pose proof (N.mod_upper_bound b 16).
    pose proof (N.mod_upper_bound c 64).
    assert (b / 16 < 16) by (apply N.Div0.div_lt_upper_bound; lia).
    assert (c / 64 < 4) by (apply N.Div0.div_lt_upper_bound; lia).
    assert (a / 4 < 64) by (apply N.Div0.div_lt_upper_bound; lia).
    rewrite !base64url_value_digit by lia.
    assert ((a mod 4 * 16 + b / 16) / 16 = a mod 4)
      by (rewrite N.add_comm, N.div_add; [rewrite N.div_small; lia|lia]).
    assert ((a mod 4 * 16 + b / 16) mod 16 = b / 16)
      by (rewrite N.add_comm, N.Div0.mod_add; apply N.mod_small; lia).
    assert ((b mod 16 * 4 + c / 64) / 4 = b mod 16)
      by (rewrite N.add_comm, N.div_add; [rewrite N.div_small; lia|lia]).
    assert ((b mod 16 * 4 + c / 64) mod 4 = c / 64)
      by (rewrite N.add_comm, N.Div0.mod_add; apply N.mod_small; lia).
    pose proof (N.div_mod a 4). pose proof (N.div_mod b 16). pose proof (N.div_mod c 64).
    rewrite IH by done. f_equal; [lia|]. f_equal; [lia|]. f_equal. lia.
Qed.

Lemma utf8_of_code_point_bytes (cp : N) :
  cp < 1114112 → Forall (λ b, b < 256) (ReplyRoute.utf8_of_code_point cp).
Proof.
  intros Hcp. unfold ReplyRoute.utf8_of_code_point.
  pose proof (N.mod_upper_bound cp 64).
  pose proof (N.mod_upper_bound (cp / 64) 64).
  pose proof (N.mod_upper_bound (cp / 4096) 64).
  destruct (cp <? 128) eqn:Hc1; [apply N.ltb_lt in Hc1; repeat constructor; lia|].
  destruct (cp <? 2048) eqn:Hc2.
  { apply N.ltb_lt in Hc2.
    assert (cp / 64 < 32) by (apply N.Div0.div_lt_upper_bound; lia).
    repeat constructor; lia. }
  destruct (cp <? 65536) eqn:Hc3.
  { apply N.ltb_lt in Hc3.
    assert (cp / 4096 < 16) by (apply N.Div0.div_lt_upper_bound; lia).
    repeat constructor; lia. }
  assert (cp / 262144 < 5) by (apply N.Div0.div_lt_upper_bound; lia).
  repeat constructor; lia.
Qed.

Lemma code_points_bounded (s : jsstring) :
  Forall (λ c, c < 65536) s →
  Forall (λ cp, cp < 1114112) (ReplyRoute.code_points s).
Proof.
  intros Hs.
  assert (H : Forall (λ cp, cp < 1114112) (ReplyRoute.code_points s)
              ∧ ∀ c, c < 65536 →
                     Forall (λ cp, cp < 1114112) (ReplyRoute.code_points (c :: s))).
  { induction Hs as [|x s Hx Hs [IH0 IH1]].
    - split; [constructor|]. intros c Hc. simpl.
      destruct (ReplyRoute.is_high_surrogate c); [repeat constructor; lia|].
      destruct (ReplyRoute.is_low_surrogate c); repeat constructor; lia.
    - split; [by apply IH1|]. intros c Hc.
      change (ReplyRoute.code_points (c :: x :: s))
        with (if ReplyRoute.is_high_surrogate c
              then if ReplyRoute.is_low_surrogate x
                   then (65536 + (c - 55296) * 1024 + (x - 56320))
                        :: ReplyRoute.code_points s
                   else 65533 :: ReplyRoute.code_points (x :: s)
              else if ReplyRoute.is_low_surrogate c
                   then 65533 :: ReplyRoute.code_points (x :: s)
                   else c :: ReplyRoute.code_points (x :: s)).
      destruct (ReplyRoute.is_high_surrogate c) eqn:Hhi.
      + destruct (ReplyRoute.is_low_surrogate x) eqn:Hlo.
        * constructor; [|done].
          unfold ReplyRoute.is_high_surrogate, ReplyRoute.is_low_surrogate in *.
          apply andb_true_iff in Hhi as [?%N.leb_le ?%N.leb_le].
          apply andb_true_iff in Hlo as [?%N.leb_le ?%N.leb_le]. lia.
        * constructor; [lia|by apply IH1].
      + destruct (ReplyRoute.is_low_surrogate c); (constructor; [lia|by apply IH1]). }
  apply H.
Qed.

(** The bytes [Buffer.from] makes of a string are bytes. *)
Lemma utf8_bytes (s : jsstring) :
  Forall (λ c, c < 65536) s → Forall (λ b, b < 256) (ReplyRoute.utf8 s).
Proof.
  intros Hs%code_points_bounded. unfold ReplyRoute.utf8.
  induction Hs as [|cp cps Hcp _ IH]; simpl; [constructor|].
  apply Forall_app. split; [by apply utf8_of_code_point_bytes|done].
Qed.

Lemma lit_code_units (s : string) : Forall (λ c, c < 65536) (lit s).
Proof.
  unfold lit. induction (list_ascii_of_string s) as [|a l IH]; simpl; [constructor|].
  constructor; [|done]. pose proof (N_ascii_bounded a). lia.
Qed.

Lemma join_code_units (P : N → Prop) (sep : jsstring) (parts : list jsstring) :
  Forall P sep → Forall (Forall P) parts → Forall P (join sep parts).
Proof.
  intros Hsep Hparts. induction Hparts as [|p parts Hp Hparts IH]; [constructor|].
  destruct parts as [|q parts]; [done|].
  change (join sep (p :: q :: parts)) with (p ++ sep ++ join sep (q :: parts)).
  by rewrite !Forall_app.
Qed.

Lemma envelope_code_units (input : ReplyRoute.EncodedEmailInput) :
  Forall (λ c, c < 65536) (ReplyRoute.to input) →
  Forall (λ c, c < 65536) (ReplyRoute.subject input) →
  Forall (λ c, c < 65536) (ReplyRoute.body input) →
  Forall (λ c, c < 65536) (nullish (ReplyRoute.inReplyTo input) []) →
  Forall (λ c, c < 65536) (envelope input).
Proof.
  intros Hto Hsubject Hbody Hreply. unfold envelope.
  apply join_code_units; [by repeat constructor|].
  assert (Hq : Forall (λ c, c < 65536) dquote) by by repeat constructor.
  destruct (truthy (ReplyRoute.inReplyTo input));
    repeat first [assumption | apply lit_code_units | apply Forall_nil_2
                 | apply Forall_app; split | apply Forall_cons; split].
Qed.

(** X2. Read back as unpadded URL-safe base64, the text [encodeEmail] returns
    gives the bytes of the envelope in UTF-8, all of them: nothing of the
    envelope is lost or altered by the encoding. The strings are JavaScript
    strings, of code units below 65536. *)
Theorem encodeEmail_round_trip (input : ReplyRoute.EncodedEmailInput) :
  Forall (λ c, c < 65536) (ReplyRoute.to input) →
  Forall (λ c, c < 65536) (ReplyRoute.subject input) →
  Forall (λ c, c < 65536) (ReplyRoute.body input) →
  Forall (λ c, c < 65536) (nullish (ReplyRoute.inReplyTo input) []) →
  base64url_decode (ReplyRoute.encodeEmail input) = ReplyRoute.utf8 (envelope input).
Proof.
  intros Hto Hsubject Hbody Hreply. rewrite encodeEmail_digits.
  by apply sextets_round_trip, utf8_bytes, envelope_code_units.
Qed.

Lemma encodeEmail_round_trip_witness :
  base64url_decode
    (ReplyRoute.encodeEmail
       {| ReplyRoute.to := lit "alex@example.com"; ReplyRoute.subject := lit "Re: Invoice";
          ReplyRoute.body := lit "Thanks " ++ [233; 55357; 56832];
          ReplyRoute.inReplyTo := Some (lit "<x@y>") |})
  = ReplyRoute.utf8
      (envelope
         {| ReplyRoute.to := lit "alex@example.com"; ReplyRoute.subject := lit "Re: Invoice";
            ReplyRoute.body := lit "Thanks " ++ [233; 55357; 56832];
            ReplyRoute.inReplyTo := Some (lit "<x@y>") |}).
Proof.
  apply (encodeEmail_round_trip
           {| ReplyRoute.to := lit "alex@example.com"; ReplyRoute.subject := lit "Re: Invoice";
              ReplyRoute.body := lit "Thanks " ++ [233; 55357; 56832];
              ReplyRoute.inReplyTo := Some (lit "<x@y>") |});
    apply (bool_decide_unpack _); vm_compute; exact I.
Defined.

(** ** The reply route, call by call *)

Section ReplyRouteCalls.
Context {W : Type}.
Variable h : ∀ o : Gmail.Op, W → Gmail.Ar o * W.

(** A run of the route for an authenticated caller with a complete request:
    the calls made are the first [n] of the three calls of a reply, all but
    the last of them resolved, and the answer is the success exactly when all
    three were made and resolved. *)
Lemma POST_calls (s : Session) (p : ReplyPayload) (w : W) :
  truthy (accessToken s) = true →
  ReplyRoute.incomplete p = false →
  let r := run h (ReplyRoute.POST (Some s) p) w in
  ∃ n evs ev,
    r.1.2 = evs ++ [ev]
    ∧ List.map (λ e, projT1 e) r.1.2 = take n (reply_calls s p)
    ∧ (1 ≤ n ≤ 3)%nat
    ∧ Forall (λ e, Gmail.rejected e = false) evs
    ∧ ((Gmail.rejected ev = true ∧ r.1.1 = ReplyRoute.failed)
       ∨ (Gmail.rejected ev = false ∧ n = 3%nat ∧ r.1.1 = json OkBody)).
Proof.
  intros Hs Hp. unfold ReplyRoute.POST. rewrite Hs, Hp. simpl.
  destruct (h (Gmail.CreateClient _ _) w) as [[[]|[]] w1]; simpl.
  2: { eexists 1%nat, [], _. split; [reflexivity|].
       repeat split; [lia..|constructor|by left]. }
  destruct (h (Gmail.MessagesSend _ _) w1) as [[[]|[]] w2]; simpl.
  2: { eexists 2%nat, [_], _. split; [reflexivity|].
       repeat split; [lia..|by repeat constructor|by left]. }
  destruct (h (Gmail.MessagesModify _ _ _) w2) as [[[]|[]] w3]; simpl.
  - eexists 3%nat, [_; _], _. split; [reflexivity|].
    repeat split; [lia..|by repeat constructor|by right].
  - eexists 3%nat, [_; _], _. split; [reflexivity|].
    repeat split; [lia..|by repeat constructor|by left].
Qed.


(** X4. The route never relabels a message whose reply it has not
    submitted, and never submits twice: the calls of a run are the client,
    then the submission, then the label mutation, each made once and only
    after the one before it has resolved. *)
Theorem POST_calls_in_order (session : option Session) (s : Session)
  (p : ReplyPayload) (w : W) :
  session = Some s →
  authenticated session = true →
  ReplyRoute.incomplete p = false →
  ∃ n evs ev,
    events h (ReplyRoute.POST session p) w = evs ++ [ev]
    ∧ performed h (ReplyRoute.POST session p) w = take n (reply_calls s p)
    ∧ (1 ≤ n ≤ 3)%nat
    ∧ Forall (λ e, Gmail.rejected e = false) evs.
Proof.
  intros -> Hauth Hp. simpl in Hauth. unfold performed, events.
  destruct (POST_calls s p w Hauth Hp) as (n & evs & ev & Hevs & Hops & Hn & Hres & _).
  by exists n, evs, ev.
Qed.

End ReplyRouteCalls.


Lemma POST_calls_in_order_witness :
  ∃ n evs ev,
    events (provider inbox_modify_fails)
      (ReplyRoute.POST signed_in (reply_to_message1 (lit "Thanks"))) tt = evs ++ [ev]
    ∧ performed (provider inbox_modify_fails)
        (ReplyRoute.POST signed_in (reply_to_message1 (lit "Thanks"))) tt
      = take n (reply_calls {| accessToken := Some (lit "token"); refreshToken := None |}
                  (reply_to_message1 (lit "Thanks")))
    ∧ (1 ≤ n ≤ 3)%nat
    ∧ Forall (λ e, Gmail.rejected e = false) evs.
Proof.
  apply (POST_calls_in_order (provider inbox_modify_fails) signed_in
           {| accessToken := Some (lit "token"); refreshToken := None |}
           (reply_to_message1 (lit "Thanks")) tt); reflexivity.
Defined.

(** ** The list route, call by call *)

Section ListRouteCalls.
Context {W : Type}.
Variable h : ∀ o : Gmail.Op, W → Gmail.Ar o * W.

(** The fan-out makes one lookup for each entry with an identifier, in the
    order of the entries, whether or not an earlier one has thrown. *)
Lemma promise_all_lookup_calls (entries : list Gmail.MessageRef) (w : W) :
  List.map (λ ev, projT1 ev)
    (run h (promise_all (List.map ListRoute.lookup entries)) w).1.2
  = List.map lookup_call (List.filter carries_id entries).
Proof.
  revert w. induction entries as [|entry entries IH]; intros w; [done|].
  simpl promise_all. rewrite run_bind. cbv zeta. cbn [fst snd].
  rewrite run_bind. cbv zeta. cbn [fst snd]. simpl run at 3.
  cbn [fst snd]. rewrite app_nil_r, List.map_app, IH.
  simpl List.filter. unfold ListRoute.lookup, carries_id.
  destruct (truthy (Gmail.ref_id entry)); simpl; [|done].
  by destruct (h _ w) as [[detail|e] w1].
Qed.

(** The events of a run of the route for an authenticated caller. *)
Lemma GET_events (s : Session) (w : W) :
  truthy (accessToken s) = true →
  let r := run h (ListRoute.GET (Some s)) w in
  let create := Gmail.CreateClient (nullish (accessToken s) []) (refreshToken s) in
  let query := Gmail.MessagesList [lit "INBOX"] (lit "is:unread") 15 in
  r.1.2 = [existT create (Rejected tt)]
  ∨ r.1.2 = [existT create (Resolved tt); existT query (Rejected tt)]
  ∨ ∃ data evs,
      r.1.2 = existT create (Resolved tt) :: existT query (Resolved data) :: evs
      ∧ Forall (λ ev, Gmail.listed ev = None) evs
      ∧ List.map (λ ev, projT1 ev) evs
        = List.map lookup_call (List.filter carries_id (nullish data []))
      ∧ (nullish data [] = [] → r.1.1 = json (MessagesBody [])).
Proof.
  intros Hauth. unfold ListRoute.GET. rewrite Hauth. simpl.
  destruct (h (Gmail.CreateClient _ _) w) as [[[]|[]] w1]; simpl; [|by left].
  destruct (h (Gmail.MessagesList _ _ _) w1) as [[data|[]] w2]; simpl;
    [|by right; left].
  right. right. exists data.
  destruct (nullish data []) as [|entry rest] eqn:Hdata; [simpl|cbv iota].
  - exists []. by repeat split.
  - rewrite !run_bind. cbv zeta. cbn [fst snd].
    pose proof (promise_all_lookup_calls (entry :: rest) w2) as Hcalls.
    pose proof (run_promise_all_lookup h (entry :: rest) w2) as [Hnone _].
    cbv zeta in Hnone.
    destruct (run h (promise_all (List.map ListRoute.lookup (entry :: rest))) w2)
      as [[r evs] w3]. cbn [fst snd] in *.
    exists evs. destruct r as [ds|[]]; simpl; rewrite !app_nil_r; by repeat split.
Qed.

(** X6. Once the client is there and the unread query has answered, the
    route looks up every entry that carries an identifier, once and in the
    order of the entries, and makes no other call; it does so even when one
    of the lookups throws. *)
Theorem GET_calls (session : option Session) (s : Session) (w : W)
  (entries : list Gmail.MessageRef) :
  session = Some s →
  authenticated session = true →
  Exists (λ ev, Gmail.listed ev = Some entries) (events h (ListRoute.GET session) w) →
  performed h (ListRoute.GET session) w
  = list_calls s ++ List.map lookup_call (List.filter carries_id entries).
Proof.
  intros -> Hauth. simpl in Hauth. unfold performed, events.
  destruct (GET_events s w Hauth)
    as [Hevs|[Hevs|(data & evs & Hevs & Hnone & Hcalls & _)]];
    cbv zeta in Hevs; rewrite Hevs; intros Hl.
  - apply Exists_cons in Hl as [Hl|Hl%Exists_nil]; done.
  - repeat (apply Exists_cons in Hl as [Hl|Hl]; [done|]). by apply Exists_nil in Hl.
  - apply Exists_cons in Hl as [Hl|Hl]; [done|].
    apply Exists_cons in Hl as [Hl|Hl].
    + simpl in Hl. injection Hl as <-. simpl. by rewrite Hcalls.
    + exfalso. apply Exists_exists in Hl as (ev & Hin & Hev).
      rewrite Forall_forall in Hnone. rewrite (Hnone ev Hin) in Hev. done.
Qed.

(** X5. When the unread query answers with no entry (an empty list, or no
    list at all), the route answers with the empty collection at once: its
    only calls are the client and the query. *)
Theorem GET_empty_list (session : option Session) (s : Session) (w : W) :
  session = Some s →
  authenticated session = true →
  Exists (λ ev, Gmail.listed ev = Some []) (events h (ListRoute.GET session) w) →
  result h (ListRoute.GET session) w = json (MessagesBody [])
  ∧ performed h (ListRoute.GET session) w = list_calls s.
Proof.
  intros Hsession Hauth Hl. split.
  - subst session. simpl in Hauth. unfold result, events in *.
    destruct (GET_events s w Hauth)
      as [Hevs|[Hevs|(data & evs & Hevs & Hnone & _ & Hempty)]];
      cbv zeta in Hevs; rewrite Hevs in Hl.
    + apply Exists_cons in Hl as [Hl|Hl%Exists_nil]; done.
    + repeat (apply Exists_cons in Hl as [Hl|Hl]; [done|]). by apply Exists_nil in Hl.
    + apply Hempty. apply Exists_cons in Hl as [Hl|Hl]; [done|].
      apply Exists_cons in Hl as [Hl|Hl].
      * simpl in Hl. by injection Hl.
      * exfalso. apply Exists_exists in Hl as (ev & Hin & Hev).
        rewrite Forall_forall in Hnone. rewrite (Hnone ev Hin) in Hev. done.
  - subst session. simpl in Hauth. unfold performed, events in *.
    destruct (GET_events s w Hauth)
      as [Hevs|[Hevs|(data & evs & Hevs & Hnone & Hcalls & _)]];
      cbv zeta in Hevs; rewrite Hevs in *.
    + apply Exists_cons in Hl as [Hl|Hl%Exists_nil]; done.
    + repeat (apply Exists_cons in Hl as [Hl|Hl]; [done|]). by apply Exists_nil in Hl.
    + apply Exists_cons in Hl as [Hl|Hl]; [done|].
      apply Exists_cons in Hl as [Hl|Hl].
      * simpl in Hl. injection Hl as Hdata. rewrite Hdata in Hcalls.
        simpl. by rewrite Hcalls.
      * exfalso. apply Exists_exists in Hl as (ev & Hin & Hev).
        rewrite Forall_forall in Hnone. rewrite (Hnone ev Hin) in Hev. done.
Qed.

(** X7. Every message of a collection the route answers with has an
    identifier that is not empty, and such an answer has status 200. *)
Theorem GET_messages_have_ids (session : option Session) (w : W)
  (ms : list GmailMessage) :
  body (result h (ListRoute.GET session) w) = MessagesBody ms →
  Forall (λ message, id message ≠ []) ms
  ∧ status (result h (ListRoute.GET session) w) = 200.
Proof.
  intros Hbody. destruct (authenticated session) eqn:Hauth.
  2: { by rewrite (GET_unauthenticated session Hauth) in Hbody. }
  destruct session as [s|]; [|done]. simpl in Hauth. unfold result in *.
  destruct (GET_run h s w Hauth) as [[_ Hr]|[_ (entries & _ & _ & ms' & Hr & Hms)]];
    rewrite Hr in *; [done|].
  simpl in Hbody. injection Hbody as ->. split; [|done].
  apply enriched_from_ids in Hms.
  assert (Hids : Forall (λ i, truthy i = true)
                   (List.map Gmail.ref_id (List.filter carries_id entries))).
  { apply Forall_forall. intros i Hi%list_elem_of_In%in_map_iff.
    destruct Hi as (e & <- & He%filter_In). apply He. }
  rewrite <- Hms in Hids. apply Forall_forall. intros message Hin.
  rewrite Forall_forall in Hids.
  specialize (Hids (Some (id message))). intros Hempty.
  rewrite Hempty in Hids. simpl in Hids.
  assert (false = true); [|done]. apply Hids.
  apply list_elem_of_In, in_map_iff. exists message. 
  split; [by rewrite Hempty|by apply list_elem_of_In].
Qed.

End ListRouteCalls.

Lemma GET_calls_witness :
  performed (provider inbox_lookup_fails) (ListRoute.GET signed_in) tt
  = list_calls {| accessToken := Some (lit "token"); refreshToken := None |}
    ++ List.map lookup_call (List.filter carries_id (unread inbox)).
Proof.
  apply (GET_calls (provider inbox_lookup_fails) signed_in
           {| accessToken := Some (lit "token"); refreshToken := None |} tt (unread inbox)).
  - reflexivity.
  - reflexivity.
  - vm_compute. apply Exists_cons_tl, Exists_cons_hd. reflexivity.
Defined.

Lemma GET_empty_list_witness :
  result (provider inbox_empty) (ListRoute.GET signed_in) tt = json (MessagesBody [])
  ∧ performed (provider inbox_empty) (ListRoute.GET signed_in) tt
    = list_calls {| accessToken := Some (lit "token"); refreshToken := None |}.
Proof.
  apply (GET_empty_list (provider inbox_empty) signed_in
           {| accessToken := Some (lit "token"); refreshToken := None |} tt).
  - reflexivity.
  - reflexivity.
  - vm_compute. apply Exists_cons_tl, Exists_cons_hd. reflexivity.
Defined.

Lemma GET_messages_have_ids_witness :
  Forall (λ message, id message ≠ []) [message1; message2]
  ∧ status (result (provider inbox) (ListRoute.GET signed_in) tt) = 200.
Proof.
  apply (GET_messages_have_ids (provider inbox) signed_in tt [message1; message2]).
  vm_compute. reflexivity.
Defined.

(** ** The sender, whatever the header *)

Lemma trimEnd_idempotent (s : jsstring) : trimEnd (trimEnd s) = trimEnd s.
Proof. unfold trimEnd. by rewrite rev_involutive, drop_while_idem. Qed.

Lemma trimStart_head (s : jsstring) (c : N) (s' : jsstring) :
  trimStart s = c :: s' → is_space c = false.
Proof. apply drop_while_head. Qed.

(** Trimming the end leaves the start alone. *)
Lemma trimStart_trimEnd (s : jsstring) :
  trimStart s = s → trimStart (trimEnd s) = trimEnd s.
Proof.
  intros Hs. destruct (trimEnd_split s) as (w & Hw & Hsplit).
  destruct (trimEnd s) as [|c t] eqn:Ht; [done|].
  unfold trimStart. apply drop_while_stop.
  destruct s as [|x s']; [done|]. injection Hsplit as -> _.
  by apply (trimStart_head (c :: s') c s').
Qed.

Lemma trim_idempotent (s : jsstring) : trim (trim s) = trim s.
Proof.
  unfold trim. rewrite (trimStart_trimEnd (trimStart s)).
  - apply trimEnd_idempotent.
  - apply drop_while_idem.
Qed.

Lemma trim_keeps (P : N → Prop) (s : jsstring) : Forall P s → Forall P (trim s).
Proof.
  intros Hs. unfold trim, trimEnd, trimStart.
  by apply Forall_rev, drop_while_suffix, Forall_rev, drop_while_suffix.
Qed.

Lemma remove_all_removes (c : N) (s : jsstring) : Forall (λ x, x ≠ c) (remove_all c s).
Proof.
  apply Forall_forall. intros x Hx%list_elem_of_In%filter_In.
  destruct Hx as [_ Hx]. apply negb_true_iff, N.eqb_neq in Hx. done.
Qed.

(** X8. Whatever the header, a name the parser returns is not empty, holds no
    quote character and has no white space around it, and it comes with an
    address without white space around it. A header that is not empty always
    gives an address; a header that is absent or empty gives neither name nor
    address. *)
Theorem parseEmailAddress_invariants (header : option jsstring) :
  (∀ n, ListRoute.p_name (ListRoute.parseEmailAddress header) = Some n →
        n ≠ [] ∧ Forall (λ c, c ≠ 34) n ∧ trim n = n
        ∧ ∃ a, ListRoute.p_address (ListRoute.parseEmailAddress header) = Some a
               ∧ trim a = a)
  ∧ (truthy header = true →
     ListRoute.p_address (ListRoute.parseEmailAddress header) ≠ None)
  ∧ (truthy header = false →
     ListRoute.parseEmailAddress header
     = {| ListRoute.p_name := None; ListRoute.p_address := None |}).
Proof.
  unfold ListRoute.parseEmailAddress.
  destruct (truthy header) eqn:Hh; simpl; [|by repeat split].
  destruct (ListRoute.sender_match (nullish header [])) as [[m1 m2]|]; simpl;
    [|by repeat split].
  split; [|by split].
  intros n. destruct (truthy m2); simpl; [|done].
  destruct (trim (remove_all 34 m1)) as [|c t] eqn:Hname; simpl; [done|].
  intros [= <-]. rewrite <- Hname. repeat split.
  - by rewrite Hname.
  - apply trim_keeps, remove_all_removes.
  - apply trim_idempotent.
  - eexists. split; [done|]. apply trim_idempotent.
Qed.

Lemma parseEmailAddress_invariants_witness :
  ListRoute.p_address
    (ListRoute.parseEmailAddress (Some (lit "  Ann Lee   < ann@example.com >"))) ≠ None.
Proof.
  apply (parseEmailAddress_invariants (Some (lit "  Ann Lee   < ann@example.com >"))).
  reflexivity.
Defined.

(** ** Headers and the record of a message *)

Lemma headerValue_absent (hs : list Gmail.MessageHeader) (key : jsstring) :
  Forall (λ x, Gmail.name x ≠ Some key) hs →
  ListRoute.headerValue (Some hs) key = None.
Proof.
  intros Hhs. unfold ListRoute.headerValue.
  destruct (List.find _ hs) as [x|] eqn:Hfind; [|done].
  apply find_some in Hfind as [Hin Hx%bool_decide_eq_true].
  rewrite Forall_forall in Hhs. by apply list_elem_of_In, Hhs in Hin.
Qed.

(** X9. Of the headers of a message the route reads the first one whose name
    is exactly the key, later ones with that name are ignored, also when the
    first has no value; the header is read as null when no header has that
    name or when there is no list of headers. *)
Theorem headerValue_first_match (before after : list Gmail.MessageHeader)
  (first : Gmail.MessageHeader) (key : jsstring) :
  Forall (λ x, Gmail.name x ≠ Some key) before →
  Gmail.name first = Some key →
  ListRoute.headerValue (Some (before ++ first :: after)) key = Gmail.value first
  ∧ ListRoute.headerValue (Some before) key = None
  ∧ ListRoute.headerValue None key = None.
Proof.
  intros Hbefore Hfirst. split; [|split; [by apply headerValue_absent|done]].
  unfold ListRoute.headerValue.
  induction Hbefore as [|x before Hx _ IH]; simpl.
  - by rewrite bool_decide_eq_true_2.
  - by rewrite bool_decide_eq_false_2.
Qed.

Lemma headerValue_first_match_witness :
  ListRoute.headerValue
    (Some ([header (lit "subject") (lit "lower case")]
           ++ {| Gmail.name := Some (lit "Subject"); Gmail.value := None |}
              :: [header (lit "Subject") (lit "second")]))
    (lit "Subject")
  = None.
Proof.
  apply (headerValue_first_match [header (lit "subject") (lit "lower case")]
           [header (lit "Subject") (lit "second")]
           {| Gmail.name := Some (lit "Subject"); Gmail.value := None |} (lit "Subject")).
  - apply (bool_decide_unpack _). vm_compute. exact I.
  - reflexivity.
Defined.

(** X10. For a lookup that brings none of the four headers (no payload, no
    header list, or other headers only), the record has the placeholder
    "(no subject)" as subject, no sender (raw header, name and address are
    null), no date and no Message-ID; it keeps the identifier, takes the
    thread of the entry or else that of the lookup, and an absent snippet is
    the empty string. *)
Theorem enrich_without_headers (i : jsstring) (thread : option jsstring)
  (detail : Gmail.Detail) :
  Forall (λ x, ∀ key, key ∈ ListRoute.METADATA_HEADERS → Gmail.name x ≠ Some key)
    (headers_of detail) →
  ListRoute.enrich i thread detail
  = {| id := i;
       threadId := match thread with
                   | Some t => Some t
                   | None => Gmail.d_threadId detail
                   end;
       subject := lit "(no subject)";
       from := None; fromName := None; fromAddress := None;
       snippet := nullish (Gmail.d_snippet detail) [];
       internalDate := Gmail.d_internalDate detail;
       date := None; messageIdHeader := None |}.
Proof.
  intros Hnone. unfold ListRoute.enrich. fold (headers_of detail).
  assert (Hkey : ∀ key, key ∈ ListRoute.METADATA_HEADERS →
                        ListRoute.headerValue (Some (headers_of detail)) key = None).
  { intros key Hkey. apply headerValue_absent.
    eapply Forall_impl; [exact Hnone|]. intros x Hx. by apply Hx. }
  rewrite !Hkey; [done|unfold ListRoute.METADATA_HEADERS; set_solver..].
Qed.

Lemma enrich_without_headers_witness :
  ListRoute.enrich (lit "m9") None
    {| Gmail.payload := None; Gmail.d_threadId := Some (lit "t9");
       Gmail.d_snippet := None; Gmail.d_internalDate := None |}
  = {| id := lit "m9"; threadId := Some (lit "t9"); subject := lit "(no subject)";
       from := None; fromName := None; fromAddress := None; snippet := [];
       internalDate := None; date := None; messageIdHeader := None |}.
Proof.
  apply (enrich_without_headers (lit "m9") None
           {| Gmail.payload := None; Gmail.d_threadId := Some (lit "t9");
              Gmail.d_snippet := None; Gmail.d_internalDate := None |}).
  constructor.
Defined.

(** ** The templates and the smart draft *)

(** X11. Each of the three quick replies is a fixed text into which only the
    name of the sender and the subject are put: it greets with "Hi ", the name
    of the sender or "there" when the name is null, and a comma, and further
    on it quotes the subject between quote characters. *)
Theorem quick_replies_interpolate (template : Page.Template) :
  template ∈ Page.QUICK_REPLIES →
  ∃ middle ending,
    ∀ recipient,
      Page.t_body template recipient
      = lit "Hi " ++ nullish (fromName recipient) (lit "there") ++ lit "," ++ nl ++ nl
        ++ middle ++ dquote ++ subject recipient ++ dquote ++ ending.
Proof.
  unfold Page.QUICK_REPLIES.
  intros [->|[->|[->|[]%elem_of_nil]%elem_of_cons]%elem_of_cons]%elem_of_cons.
  - exists (lit "Thanks for reaching out about "),
      (lit ". I received your message and will circle back with a full response soon."
       ++ nl ++ nl ++ lit "Best," ++ nl).
    intros recipient. cbn [Page.t_body]. unfold Page.acknowledge_body.
    reflexivity.
  - exists (lit "Appreciate the note regarding "),
      (lit ". Happy to connect" ++ [8212]
       ++ lit "would you have time for a quick call later this week? Let me know a few windows that work for you."
       ++ nl ++ nl ++ lit "Thanks," ++ nl).
    intros recipient. cbn [Page.t_body]. unfold Page.schedule_body.
    reflexivity.
  - exists (lit "Thanks for reaching out! Could you share a bit more detail about "),
      (lit " so I can help faster?" ++ nl ++ nl
       ++ lit "Looking forward to your reply," ++ nl).
    intros recipient. cbn [Page.t_body]. unfold Page.follow_up_body.
    reflexivity.
Qed.

Lemma quick_replies_interpolate_witness :
  ∃ middle ending,
    ∀ recipient,
      Page.schedule_body recipient
      = lit "Hi " ++ nullish (fromName recipient) (lit "there") ++ lit "," ++ nl ++ nl
        ++ middle ++ dquote ++ subject recipient ++ dquote ++ ending.
Proof.
  apply (quick_replies_interpolate
           {| Page.t_id := lit "schedule"; Page.label := lit "Schedule a call";
              Page.t_body := Page.schedule_body |}).
  apply list_elem_of_further, list_elem_of_here.
Defined.

Lemma collapse_spaces_blank (in_run : bool) (s : jsstring) :
  Forall (λ c, is_space c = true) s →
  Forall (λ c, is_space c = true) (Page.collapse_spaces in_run s).
Proof.
  intros Hs. revert in_run. induction Hs as [|c s Hc _ IH]; intros in_run; simpl;
    [constructor|].
  rewrite Hc. destruct in_run; [apply IH|]. constructor; [done|apply IH].
Qed.

Lemma trim_blank (s : jsstring) : Forall (λ c, is_space c = true) s → trim s = [].
Proof.
  intros Hs. unfold trim, trimStart.
  rewrite <- (app_nil_r s), drop_while_app_all by done. done.
Qed.

(** X12. For a message with a sender address whose snippet is empty or white
    space only, the smart draft has no clause about what was understood: after
    the greeting and the sentence naming the subject it goes straight on to
    the closing sentence. *)
Theorem smartReply_blank_snippet (message : GmailMessage) :
  truthy (fromAddress message) = true →
  Forall (λ c, is_space c = true) (snippet message) →
  Page.smartReply message
  = greeting message ++ nl ++ nl
    ++ lit "Thanks for getting in touch regarding " ++ dquote ++ subject message
    ++ dquote ++ lit ". "
    ++ lit "I'll review the details and follow up with the next steps shortly."
    ++ nl ++ nl ++ lit "Best regards," ++ nl.
Proof.
  intros Haddress Hblank. unfold Page.smartReply, greeting. rewrite Haddress.
  cbn [negb]. cbv zeta.
  rewrite (trim_blank (Page.collapse_spaces false (snippet message)))
    by by apply collapse_spaces_blank.
  reflexivity.
Qed.

Lemma smartReply_blank_snippet_witness :
  Page.smartReply
    {| id := lit "m3"; threadId := None; subject := lit "Hello";
       from := Some (lit "bo@example.com"); fromName := None;
       fromAddress := Some (lit "bo@example.com"); snippet := [32; 10; 9];
       internalDate := None; date := None; messageIdHeader := None |}
  = lit "Hello," ++ nl ++ nl
    ++ lit "Thanks for getting in touch regarding " ++ dquote ++ lit "Hello"
    ++ dquote ++ lit ". "
    ++ lit "I'll review the details and follow up with the next steps shortly."
    ++ nl ++ nl ++ lit "Best regards," ++ nl.
Proof.
  apply (smartReply_blank_snippet
           {| id := lit "m3"; threadId := None; subject := lit "Hello";
              from := Some (lit "bo@example.com"); fromName := None;
              fromAddress := Some (lit "bo@example.com"); snippet := [32; 10; 9];
              internalDate := None; date := None; messageIdHeader := None |}).
  - reflexivity.
  - apply (bool_decide_unpack _). vm_compute. exact I.
Defined.

(** The collapsed snippet: white space in it is the plain space, never twice
    in a row, and what is not white space is kept as it is and in order. *)
Lemma collapse_spaces_shape (in_run : bool) (s : jsstring) :
  Forall (λ c, is_space c = true → c = 32) (Page.collapse_spaces in_run s)
  ∧ single_spaced in_run (Page.collapse_spaces in_run s) = true
  ∧ List.filter (λ c, negb (is_space c)) (Page.collapse_spaces in_run s)
    = List.filter (λ c, negb (is_space c)) s.
Proof.
  revert in_run. induction s as [|c s IH]; intros in_run; [by repeat split|].
  simpl. destruct (is_space c) eqn:Hc.
  - destruct in_run.
    + destruct (IH true) as (H1 & H2 & H3). by repeat split.
    + destruct (IH true) as (H1 & H2 & H3). repeat split.
      * by constructor.
      * simpl. by rewrite H2.
      * simpl. done.
  - destruct (IH false) as (H1 & H2 & H3). repeat split.
    + constructor; [|done]. intros Hsp. congruence.
    + simpl. by rewrite Hc.
    + simpl. by rewrite Hc, H3.
Qed.

Lemma single_spaced_weaken (after_space : bool) (s : jsstring) :
  single_spaced after_space s = true → single_spaced false s = true.
Proof.
  destruct s as [|c s]; [done|]. simpl. destruct (is_space c); [|done].
  by intros [_ ?]%andb_true_iff.
Qed.

Lemma single_spaced_drop (after_space : bool) (s : jsstring) :
  single_spaced after_space s = true →
  single_spaced false (drop_while is_space s) = true.
Proof.
  revert after_space. induction s as [|c s IH]; intros after_space; [done|].
  simpl. destruct (is_space c) eqn:Hc.
  - intros [_ Hs]%andb_true_iff. by apply (IH true).
  - intros Hs. simpl. by rewrite Hc.
Qed.

Lemma single_spaced_prefix (after_space : bool) (s w : jsstring) :
  single_spaced after_space (s ++ w) = true → single_spaced after_space s = true.
Proof.
  revert after_space. induction s as [|c s IH]; intros after_space; [done|].
  simpl. destruct (is_space c).
  - intros [-> Hs]%andb_true_iff. simpl. by apply IH.
  - apply IH.
Qed.

Lemma filter_blank (w : jsstring) :
  Forall (λ c, is_space c = true) w → List.filter (λ c, negb (is_space c)) w = [].
Proof. induction 1 as [|c w Hc _ IH]; simpl; [done|]. by rewrite Hc. Qed.

Lemma trim_content (s : jsstring) :
  List.filter (λ c, negb (is_space c)) (trim s) = List.filter (λ c, negb (is_space c)) s.
Proof.
  unfold trim.
  destruct (drop_while_split is_space s) as (w1 & Hw1 & Hs).
  destruct (trimEnd_split (trimStart s)) as (w2 & Hw2 & Ht).
  apply (f_equal (List.filter (λ c, negb (is_space c)))) in Hs, Ht.
  rewrite List.filter_app, (filter_blank w1) in Hs by done.
  rewrite List.filter_app, (filter_blank w2), app_nil_r in Ht by done.
  rewrite <- Ht. unfold trimStart. by rewrite Hs.
Qed.

Lemma single_spaced_end (after_space : bool) (s : jsstring) :
  s ≠ [] →
  single_spaced after_space s = true →
  (∀ x, last s = Some x → is_space x = false) →
  single_spaced after_space (s ++ [32]) = true.
Proof.
  revert after_space. induction s as [|c s IH]; intros after_space Hne Hs Hlast; [done|].
  destruct s as [|y s].
  - simpl in *. by rewrite (Hlast c).
  - assert (Hlast' : ∀ x, last (y :: s) = Some x → is_space x = false).
    { intros x Hx. apply Hlast. by rewrite last_cons_cons. }
    change ((c :: y :: s) ++ [32]) with (c :: ((y :: s) ++ [32])).
    change (single_spaced after_space (c :: y :: s))
      with (if is_space c then negb after_space && single_spaced true (y :: s)
            else single_spaced false (y :: s)) in Hs.
    change (single_spaced after_space (c :: ((y :: s) ++ [32])))
      with (if is_space c then negb after_space && single_spaced true ((y :: s) ++ [32])
            else single_spaced false ((y :: s) ++ [32])).
    destruct (is_space c).
    + apply andb_true_iff in Hs as [-> Hs]. by rewrite IH.
    + by apply IH.
Qed.

(** X13. The snippet as the smart draft quotes it: the white space in it is
    the plain space only (no line break, no tab), never two in a row and none
    at either end, and the other characters of the snippet are all there, in
    their order. When it is not empty, the draft holds it word for word. *)
Theorem smartReply_cleaned_snippet (message : GmailMessage) :
  truthy (fromAddress message) = true →
  cleaned (snippet message) ≠ [] →
  Forall (λ c, is_space c = true → c = 32) (cleaned (snippet message))
  ∧ single_spaced true (cleaned (snippet message) ++ [32]) = true
  ∧ List.filter (λ c, negb (is_space c)) (cleaned (snippet message))
    = List.filter (λ c, negb (is_space c)) (snippet message)
  ∧ Page.smartReply message
    = greeting message ++ nl ++ nl
      ++ lit "Thanks for getting in touch regarding " ++ dquote ++ subject message
      ++ dquote ++ lit ". "
      ++ (lit "Here's what I understood from your note: "
          ++ cleaned (snippet message) ++ lit ". ")
      ++ lit "I'll review the details and follow up with the next steps shortly."
      ++ nl ++ nl ++ lit "Best regards," ++ nl.
Proof.
  intros Haddress Hclean.
  destruct (collapse_spaces_shape false (snippet message)) as (Hplain & Hsingle & Hcontent).
  split; [by apply trim_keeps|]. split; [|split].
  - unfold cleaned in *.
    set (t := Page.collapse_spaces false (snippet message)) in *.
    assert (Hstart : single_spaced false (trimStart t) = true)
      by by apply (single_spaced_drop false).
    destruct (trimEnd_split (trimStart t)) as (w & Hw & Hsplit).
    fold (trim t) in Hsplit. rewrite Hsplit in Hstart.
    apply single_spaced_prefix in Hstart.
    destruct (trim t) as [|c t'] eqn:Ht; [done|].
    assert (Hc : is_space c = false).
    { assert (Hidem : trimStart (trim t) = trim t).
      { unfold trim. apply trimStart_trimEnd, drop_while_idem. }
      rewrite Ht in Hidem. by apply (trimStart_head (c :: t') c t'). }
    assert (Hlast : ∀ x, last (c :: t') = Some x → is_space x = false).
    { rewrite <- Ht. unfold trim. apply trimEnd_last. }
    apply single_spaced_end; [done| |done].
    simpl in *. by rewrite Hc in *.
  - unfold cleaned. by rewrite trim_content.
  - unfold Page.smartReply, greeting. rewrite Haddress. cbn [negb]. cbv zeta.
    fold (cleaned (snippet message)).
    destruct (cleaned (snippet message)) as [|c t]; [done|]. reflexivity.
Qed.

Lemma smartReply_cleaned_snippet_witness :
  cleaned ([32; 32] ++ lit "See" ++ [10; 9] ++ lit "you   soon" ++ [13; 10])
  = lit "See you soon"
  ∧ single_spaced true
      (cleaned ([32; 32] ++ lit "See" ++ [10; 9] ++ lit "you   soon" ++ [13; 10]) ++ [32])
    = true.
Proof.
  pose proof (smartReply_cleaned_snippet
                {| id := lit "m3"; threadId := None; subject := lit "Hello";
                   from := Some (lit "bo@example.com"); fromName := None;
                   fromAddress := Some (lit "bo@example.com");
                   snippet := [32; 32] ++ lit "See" ++ [10; 9] ++ lit "you   soon"
                              ++ [13; 10];
                   internalDate := None; date := None; messageIdHeader := None |})
    as Hthm.
  destruct Hthm as (_ & Hsingle & _).
  - reflexivity.
  - vm_compute. discriminate.
  - split; [vm_compute; reflexivity|exact Hsingle].
Defined.

(** ** The drafts of the page *)

(** X14. Choosing a template for a message writes the text of that template
    for that message as its draft and touches nothing else: the drafts of the
    other messages, the collection and the notices stay as they are. An
    identifier that is not one of the three templates changes nothing at
    all. *)
Theorem handleTemplate_frame (message : GmailMessage) (templateId : jsstring)
  (st : Page.State) :
  (∀ template, template ∈ Page.QUICK_REPLIES → Page.t_id template = templateId →
     Page.replyDrafts (Page.handleTemplate message templateId st) !! id message
     = Some (Page.t_body template message))
  ∧ (∀ i, i ≠ id message →
       Page.replyDrafts (Page.handleTemplate message templateId st) !! i
       = Page.replyDrafts st !! i)
  ∧ Page.messages (Page.handleTemplate message templateId st) = Page.messages st
  ∧ Page.error (Page.handleTemplate message templateId st) = Page.error st
  ∧ Page.success (Page.handleTemplate message templateId st) = Page.success st
  ∧ Page.sendingId (Page.handleTemplate message templateId st) = Page.sendingId st
  ∧ ((∀ template, template ∈ Page.QUICK_REPLIES → Page.t_id template ≠ templateId) →
     Page.handleTemplate message templateId st = st).
Proof.
  assert (Hin : ∀ template, template ∈ Page.QUICK_REPLIES →
            template = {| Page.t_id := lit "acknowledge"; Page.label := lit "Acknowledgement";
                          Page.t_body := Page.acknowledge_body |}
            ∨ template = {| Page.t_id := lit "schedule"; Page.label := lit "Schedule a call";
                            Page.t_body := Page.schedule_body |}
            ∨ template = {| Page.t_id := lit "follow-up"; Page.label := lit "Ask for details";
                            Page.t_body := Page.follow_up_body |}).
  { unfold Page.QUICK_REPLIES.
    intros template
      [->|[->|[->|[]%elem_of_nil]%elem_of_cons]%elem_of_cons]%elem_of_cons; eauto. }
  assert (Hids : lit "acknowledge" ≠ lit "schedule"
                 ∧ lit "acknowledge" ≠ lit "follow-up"
                 ∧ lit "schedule" ≠ lit "follow-up") by (by vm_compute).
  destruct Hids as (H12 & H13 & H23).
  unfold Page.handleTemplate, Page.QUICK_REPLIES. cbn [List.find Page.t_id].
  destruct (bool_decide (lit "acknowledge" = templateId)) eqn:H1;
    [apply bool_decide_eq_true in H1
    |apply bool_decide_eq_false in H1;
     destruct (bool_decide (lit "schedule" = templateId)) eqn:H2;
       [apply bool_decide_eq_true in H2
       |apply bool_decide_eq_false in H2;
        destruct (bool_decide (lit "follow-up" = templateId)) eqn:H3;
          [apply bool_decide_eq_true in H3|apply bool_decide_eq_false in H3]]];
    cbn [Page.setReplyDrafts Page.replyDrafts Page.messages
         Page.error Page.success Page.sendingId];
    (split; [|split; [|split; [|split; [|split; [|split]]]]]); try done;
    try (intros i Hi; by rewrite lookup_insert_ne);
    try (intros template [->|[->| ->]]%Hin Ht; cbn [Page.t_id Page.t_body] in *;
         first [by rewrite lookup_insert_eq | congruence]).
  - intros Hnone. exfalso. eapply Hnone; [apply list_elem_of_here|done].
  - intros Hnone. exfalso.
    eapply Hnone; [apply list_elem_of_further, list_elem_of_here|done].
  - intros Hnone. exfalso.
    eapply Hnone; [do 2 apply list_elem_of_further; apply list_elem_of_here|done].
Qed.

Lemma handleTemplate_frame_witness :
  Page.replyDrafts (Page.handleTemplate message1 (lit "schedule") loaded) !! id message1
  = Some (Page.schedule_body message1)
  ∧ Page.handleTemplate message1 (lit "Schedule") loaded = loaded.
Proof.
  pose proof (handleTemplate_frame message1 (lit "schedule") loaded) as (Hset & _).
  pose proof (handleTemplate_frame message1 (lit "Schedule") loaded)
    as (_ & _ & _ & _ & _ & _ & Hnone).
  split.
  - apply (Hset {| Page.t_id := lit "schedule"; Page.label := lit "Schedule a call";
                   Page.t_body := Page.schedule_body |}).
    + apply list_elem_of_further, list_elem_of_here.
    + reflexivity.
  - apply Hnone. unfold Page.QUICK_REPLIES.
    intros template
      [->|[->|[->|[]%elem_of_nil]%elem_of_cons]%elem_of_cons]%elem_of_cons;
      by vm_compute.
Defined.

(** X15. The smart draft of a message becomes its draft, and nothing else of
    the page changes; for a message without sender address the page ends up
    exactly as after choosing the Acknowledgement template. *)
Theorem handleSmartDraft_frame (message : GmailMessage) (st : Page.State) :
  Page.replyDrafts (Page.handleSmartDraft message st) !! id message
  = Some (Page.smartReply message)
  ∧ (∀ i, i ≠ id message →
       Page.replyDrafts (Page.handleSmartDraft message st) !! i
       = Page.replyDrafts st !! i)
  ∧ Page.messages (Page.handleSmartDraft message st) = Page.messages st
  ∧ Page.error (Page.handleSmartDraft message st) = Page.error st
  ∧ Page.success (Page.handleSmartDraft message st) = Page.success st
  ∧ Page.sendingId (Page.handleSmartDraft message st) = Page.sendingId st
  ∧ (truthy (fromAddress message) = false →
     Page.handleSmartDraft message st
     = Page.handleTemplate message (lit "acknowledge") st).
Proof.
  unfold Page.handleSmartDraft.
  cbn [Page.setReplyDrafts Page.replyDrafts Page.messages
       Page.error Page.success Page.sendingId].
  split; [by rewrite lookup_insert_eq|].
  split; [intros i Hi; by rewrite lookup_insert_ne|].
  repeat (split; [done|]).
  intros Haddress. unfold Page.handleTemplate, Page.QUICK_REPLIES.
  cbn [List.find Page.t_id]. rewrite bool_decide_eq_true_2 by done.
  cbn [Page.t_body]. unfold Page.smartReply. rewrite Haddress. reflexivity.
Qed.

Lemma handleSmartDraft_frame_witness :
  Page.handleSmartDraft
    {| id := lit "m4"; threadId := None; subject := lit "Hi"; from := None;
       fromName := None; fromAddress := None; snippet := lit "x";
       internalDate := None; date := None; messageIdHeader := None |} loaded
  = Page.handleTemplate
      {| id := lit "m4"; threadId := None; subject := lit "Hi"; from := None;
         fromName := None; fromAddress := None; snippet := lit "x";
         internalDate := None; date := None; messageIdHeader := None |}
      (lit "acknowledge") loaded.
Proof.
  apply (handleSmartDraft_frame
           {| id := lit "m4"; threadId := None; subject := lit "Hi"; from := None;
              fromName := None; fromAddress := None; snippet := lit "x";
              internalDate := None; date := None; messageIdHeader := None |} loaded).
  reflexivity.
Defined.

(** ** Loading the list *)

Lemma fromEntries_lookup_other (entries : list (jsstring * jsstring))
  (m : gmap jsstring jsstring) (k : jsstring) :
  k ∉ entries.*1 →
  foldl (λ m e, <[e.1 := e.2]> m) m entries !! k = m !! k.
Proof.
  revert m. induction entries as [|[k' v'] entries IH]; intros m Hk; [done|].
  simpl in *. apply not_elem_of_cons in Hk as [Hne Hk].
  rewrite IH by done. by rewrite lookup_insert_ne.
Qed.

Lemma fromEntries_lookup (entries : list (jsstring * jsstring))
  (m : gmap jsstring jsstring) (k v : jsstring) :
  NoDup entries.*1 → (k, v) ∈ entries →
  foldl (λ m e, <[e.1 := e.2]> m) m entries !! k = Some v.
Proof.
  revert m. induction entries as [|[k' v'] entries IH]; intros m Hnodup Hin.
  - by apply elem_of_nil in Hin.
  - simpl in *. apply NoDup_cons in Hnodup as [Hk' Hnodup].
    apply elem_of_cons in Hin as [[= -> ->]|Hin].
    + rewrite fromEntries_lookup_other by done. apply lookup_insert_eq.
    + by apply IH.
Qed.

Section Loading.
Context {W : Type}.
Variable h : ∀ o : Page.Op, W → Page.Ar o * W.

(** The page after a list request that came back with a list. *)
Lemma handleRefresh_run (st : Page.State) (w : W) (payload : Page.MessagesResponse) :
  (h Page.FetchList w).1 = Resolved payload →
  Page.l_ok payload = true →
  NoDup (List.map id (Page.l_messages payload)) →
  let st' := result h (Page.handleRefresh true st) w in
  Page.messages st' = Page.l_messages payload
  ∧ (∀ message, message ∈ Page.l_messages payload →
       Page.replyDrafts st' !! id message = Some (Page.defaultReply message))
  ∧ (∀ i, i ∉ List.map id (Page.l_messages payload) → Page.replyDrafts st' !! i = None)
  ∧ Page.error st' = None
  ∧ Page.loadingMessages st' = false
  ∧ Page.sendingId st' = Page.sendingId st
  ∧ Page.success st' = Page.success st.
Proof.
  intros Hanswer Hok Hnodup st'. subst st'.
  unfold result, Page.handleRefresh. simpl.
  destruct (h Page.FetchList w) as [answer w1]. simpl in Hanswer. subst answer.
  simpl. rewrite Hok. simpl.
  assert (Hkeys : (List.map (λ message, (id message, Page.defaultReply message))
                     (Page.l_messages payload)).*1
                  = List.map id (Page.l_messages payload)).
  { clear. induction (Page.l_messages payload) as [|message l IH]; [done|].
    simpl. f_equal. apply IH. }
  repeat split.
  - intros message Hin. unfold Page.fromEntries. apply fromEntries_lookup.
    + by rewrite Hkeys.
    + apply list_elem_of_In, in_map_iff. exists message.
      split; [done|by apply list_elem_of_In].
  - intros i Hi. unfold Page.fromEntries.
    rewrite fromEntries_lookup_other; [done|]. by rewrite Hkeys.
Qed.

(** X16. When the list request comes back with a list of messages with
    distinct identifiers, the page shows these messages, gives each of them
    the default reply as its draft and keeps no other draft; the error
    is cleared and the loading flag is down again. *)
Theorem handleRefresh_loads (st : Page.State) (w : W) (payload : Page.MessagesResponse) :
  (h Page.FetchList w).1 = Resolved payload →
  Page.l_ok payload = true →
  NoDup (List.map id (Page.l_messages payload)) →
  let st' := result h (Page.handleRefresh true st) w in
  Page.messages st' = Page.l_messages payload
  ∧ (∀ message, message ∈ Page.l_messages payload →
       Page.replyDrafts st' !! id message = Some (Page.defaultReply message))
  ∧ (∀ i, i ∉ List.map id (Page.l_messages payload) → Page.replyDrafts st' !! i = None)
  ∧ Page.error st' = None
  ∧ Page.loadingMessages st' = false
  ∧ Page.sendingId st' = Page.sendingId st
  ∧ Page.success st' = Page.success st.
Proof. apply handleRefresh_run. Qed.

End Loading.

Lemma handleRefresh_loads_witness :
  let st' := result (Wire.serve (provider inbox) signed_in)
               (Page.handleRefresh true initial) (tt, []) in
  Page.messages st' = [message1; message2]
  ∧ Page.replyDrafts st' !! lit "m2" = Some (Page.defaultReply message2).
Proof.
  pose proof (handleRefresh_loads (Wire.serve (provider inbox) signed_in) initial (tt, [])
                (list_response (json (MessagesBody [message1; message2])))) as Hthm.
  destruct Hthm as (Hmessages & Hdrafts & _).
  - vm_compute. reflexivity.
  - reflexivity.
  - apply (bool_decide_unpack _). vm_compute. exact I.
  - split; [exact Hmessages|].
    apply (Hdrafts message2). apply list_elem_of_further, list_elem_of_here.
Defined.

Section LoadingFailure.
Context {W : Type}.
Variable h : ∀ o : Page.Op, W → Page.Ar o * W.

(** X17. When the list request is refused or does not come back, the page
    keeps the messages and the drafts it had, shows an error and takes the
    loading flag down; when the page is not authenticated, refreshing makes
    no request and changes nothing. *)
Theorem handleRefresh_failure (isAuthenticated : bool) (st : Page.State) (w : W) :
  Forall (λ ev, list_loaded ev = false)
    (events h (Page.handleRefresh isAuthenticated st) w) →
  let st' := result h (Page.handleRefresh isAuthenticated st) w in
  Page.messages st' = Page.messages st
  ∧ Page.replyDrafts st' = Page.replyDrafts st
  ∧ (isAuthenticated = true →
     Page.error st' ≠ None ∧ Page.loadingMessages st' = false
     ∧ performed h (Page.handleRefresh isAuthenticated st) w = [Page.FetchList])
  ∧ (isAuthenticated = false →
     st' = st ∧ performed h (Page.handleRefresh isAuthenticated st) w = []).
Proof.
  unfold events, result, performed, events, Page.handleRefresh.
  destruct isAuthenticated; simpl; [|by repeat split].
  destruct (h Page.FetchList w) as [[payload|thrown] w1]; simpl.
  - intros [Hok _]%Forall_cons. simpl in Hok. rewrite Hok. simpl. by repeat split.
  - intros _. by repeat split.
Qed.

End LoadingFailure.

Lemma handleRefresh_failure_witness :
  let st' := result (Wire.serve (provider inbox_lookup_fails) signed_in)
               (Page.handleRefresh true loaded) (tt, []) in
  Page.messages st' = [message1; message2]
  ∧ Page.replyDrafts st' = Page.replyDrafts loaded.
Proof.
  pose proof (handleRefresh_failure (Wire.serve (provider inbox_lookup_fails) signed_in)
                true loaded (tt, [])) as Hthm.
  destruct Hthm as (Hmessages & Hdrafts & _).
  - vm_compute. repeat constructor.
  - split; [exact Hmessages|exact Hdrafts].
Defined.

(** ** Sending one reply *)

Section Sending.
Context {W : Type}.
Variable h : ∀ o : Page.Op, W → Page.Ar o * W.

(** X18. Whatever comes of it, sending a reply makes at most one request, the
    reply request for that message, never touches the drafts or the loading
    flag, and leaves of the collection a part in its order: it removes
    messages (those with the identifier of the message, on success) and never
    adds or reorders any. If the message has a draft that is not empty, no
    message is marked as being sent any more when the handler is through. *)
Theorem handleSendReply_frame (drafts : gmap jsstring jsstring) (message : GmailMessage)
  (st : Page.State) (w : W) :
  let st' := result h (Page.handleSendReply drafts message st) w in
  Page.replyDrafts st' = Page.replyDrafts st
  ∧ Page.loadingMessages st' = Page.loadingMessages st
  ∧ Page.messages st' `sublist_of` Page.messages st
  ∧ (performed h (Page.handleSendReply drafts message st) w = []
     ∨ performed h (Page.handleSendReply drafts message st) w
       = [Page.FetchReply (reply_request drafts message)])
  ∧ (truthy (drafts !! id message) = true → Page.sendingId st' = None).
Proof.
  unfold result, performed, events, Page.handleSendReply, reply_request.
  destruct (truthy (drafts !! id message)); simpl.
  2: { split; [done|]. split; [done|]. split; [done|]. split; [by left|done]. }
  destruct (h (Page.FetchReply _) w) as [[r|thrown] w1]; simpl.
  - split; [by destruct (Page.r_ok r)|]. split; [by destruct (Page.r_ok r)|].
    split; [|split; [by right|by destruct (Page.r_ok r)]].
    destruct (Page.r_ok r); simpl; [apply sublist_filter|done].
  - split; [done|]. split; [done|]. split; [done|]. split; [by right|done].
Qed.

(** X19. When the reply request is refused or does not come back, the page
    shows why (the error of the response, the message of what was thrown, or
    else "Failed to send reply"), keeps the message in the collection and
    shows no confirmation. *)
Theorem handleSendReply_failure (drafts : gmap jsstring jsstring)
  (message : GmailMessage) (st : Page.State) (w : W) (why : jsstring) :
  Exists (λ ev, reply_failure ev = Some why)
    (events h (Page.handleSendReply drafts message st) w) →
  let st' := result h (Page.handleSendReply drafts message st) w in
  Page.error st' = Some why
  ∧ Page.messages st' = Page.messages st
  ∧ Page.success st' = Page.success st
  ∧ Page.sendingId st' = None.
Proof.
  unfold result, events, Page.handleSendReply.
  destruct (truthy (drafts !! id message)); simpl;
    [|by intros ?%Exists_nil].
  destruct (h (Page.FetchReply _) w) as [[r|thrown] w1]; simpl;
    intros [Hev|[]%Exists_nil]%Exists_cons; simpl in Hev.
  - destruct (Page.r_ok r); [done|]. simpl. by injection Hev as <-.
  - by injection Hev as <-.
Qed.

End Sending.

Lemma handleSendReply_failure_witness :
  let st' := result (Wire.serve (provider inbox_modify_fails) signed_in)
               (Page.handleSendReply (Page.replyDrafts loaded) message1 loaded) (tt, []) in
  Page.error st' = Some (lit "Failed to send reply")
  ∧ Page.messages st' = Page.messages loaded
  ∧ Page.success st' = Page.success loaded
  ∧ Page.sendingId st' = None.
Proof.
  apply (handleSendReply_failure (Wire.serve (provider inbox_modify_fails) signed_in)
           (Page.replyDrafts loaded) message1 loaded (tt, []) (lit "Failed to send reply")).
  vm_compute. apply Exists_cons_hd. reflexivity.
Defined.

Lemma handleSendReply_frame_witness :
  Page.sendingId
    (result (Wire.serve (provider inbox) signed_in)
       (Page.handleSendReply (Page.replyDrafts loaded) message1
          (Page.setSendingId (Some (lit "m2")) loaded)) (tt, []))
  = None.
Proof.
  apply (handleSendReply_frame (Wire.serve (provider inbox) signed_in)
           (Page.replyDrafts loaded) message1
           (Page.setSendingId (Some (lit "m2")) loaded) (tt, [])).
  vm_compute. reflexivity.
Defined.

(** ** Answering all *)

Lemma filter_ext_in {A} (P Q : A → Prop) `{!∀ x, Decision (P x), !∀ x, Decision (Q x)}
  (l : list A) :
  (∀ x, x ∈ l → P x ↔ Q x) → filter P l = filter Q l.
Proof.
  induction l as [|a l IH]; intros Hext; [done|].
  rewrite !filter_cons.
  rewrite IH by (intros x Hx; apply Hext; by right).
  apply decide_ext, Hext. by left.
Qed.

Section AnswerAll.
Context {W : Type}.
Variable h : ∀ o : Page.Op, W → Page.Ar o * W.

Lemma handleSendReply_run (drafts : gmap jsstring jsstring) (message : GmailMessage)
  (st : Page.State) (w : W) :
  has_text drafts message = true →
  let r := run h (Page.handleSendReply drafts message st) w in
  ∃ answer,
    r.1.2 = [existT (Page.FetchReply (reply_request drafts message)) answer]
    ∧ (reply_accepted (existT (Page.FetchReply (reply_request drafts message)) answer) = true →
       Page.messages r.1.1 = filter (λ item, id item ≠ id message) (Page.messages st)).
Proof.
  intros Htext.
  assert (Hd : truthy (drafts !! id message) = true).
  { unfold has_text in Htext. destruct (drafts !! id message) as [[|c d]|]; done. }
  unfold Page.handleSendReply, reply_request. rewrite Hd. simpl.
  destruct (h (Page.FetchReply _) w) as [answer w1]. simpl.
  exists answer. split; [done|].
  destruct answer as [r|thrown]; simpl; [|done]. by intros ->.
Qed.

Lemma answer_each_requests (drafts : gmap jsstring jsstring) (ms : list GmailMessage)
  (st : Page.State) (w : W) :
  List.map (λ ev, projT1 ev) (run h (Page.answer_each drafts ms st) w).1.2
  = List.map (λ message, Page.FetchReply (reply_request drafts message))
      (List.filter (has_text drafts) ms).
Proof.
  revert st w. induction ms as [|message ms IH]; intros st w; [done|].
  simpl. fold (has_text drafts message).
  destruct (has_text drafts message) eqn:Htext; simpl; [|apply IH].
  rewrite run_bind. cbv zeta. cbn [fst snd].
  destruct (handleSendReply_run drafts message st w Htext) as (answer & Hev & _).
  cbv zeta in Hev. rewrite Hev. simpl. f_equal. apply IH.
Qed.

(** X20. Answer-all makes one reply request for each message of the
    collection whose draft is not empty after trimming, in the order of the
    collection, and goes on to the end whatever the answers are: a refused
    request does not stop the ones after it. It skips the other messages and
    never asks for the list. *)
Theorem handleAutoAnswerAll_requests (st : Page.State) (w : W) :
  performed h (Page.handleAutoAnswerAll st) w
  = List.map (λ message, Page.FetchReply (reply_request (Page.replyDrafts st) message))
      (List.filter (has_text (Page.replyDrafts st)) (Page.messages st)).
Proof. apply answer_each_requests. Qed.

Lemma answer_each_accepted (drafts : gmap jsstring jsstring) (ms : list GmailMessage)
  (st : Page.State) (w : W) :
  Forall (λ ev, reply_accepted ev = true) (run h (Page.answer_each drafts ms st) w).1.2 →
  Page.messages (run h (Page.answer_each drafts ms st) w).1.1
  = filter (λ item, id item ∉ List.map id (List.filter (has_text drafts) ms))
      (Page.messages st).
Proof.
  revert st w. induction ms as [|message ms IH]; intros st w.
  - intros _. simpl. symmetry. apply filter_all, Forall_forall.
    intros item _. apply not_elem_of_nil.
  - simpl. fold (has_text drafts message).
    destruct (has_text drafts message) eqn:Htext; simpl; [|apply IH].
    rewrite run_bind. cbv zeta. cbn [fst snd].
    destruct (handleSendReply_run drafts message st w Htext) as (answer & Hev & Hok).
    cbv zeta in Hev, Hok. rewrite Hev.
    intros [[Hanswer _]%Forall_cons Hrest]%Forall_app.
    rewrite (IH _ _ Hrest), (Hok Hanswer), list_filter_filter.
    apply list_filter_iff. intros item. rewrite not_elem_of_cons. tauto.
Qed.

(** X21. When every request of answer-all is accepted, what is left of the
    collection are the messages it skipped, those whose draft is empty after
    trimming, in their order. *)
Theorem handleAutoAnswerAll_accepted (st : Page.State) (w : W) :
  Forall (λ ev, reply_accepted ev = true) (events h (Page.handleAutoAnswerAll st) w) →
  Page.messages (result h (Page.handleAutoAnswerAll st) w)
  = filter (λ message, has_text (Page.replyDrafts st) message = false) (Page.messages st).
Proof.
  intros Hall. unfold result, Page.handleAutoAnswerAll.
  rewrite (answer_each_accepted _ _ _ _ Hall).
  apply filter_ext_in. intros item Hitem. split.
  - intros Hnot. destruct (has_text (Page.replyDrafts st) item) eqn:Htext; [|done].
    exfalso. apply Hnot. apply list_elem_of_In, in_map, filter_In.
    split; [by apply list_elem_of_In|done].
  - intros Hblank Hin. apply list_elem_of_In, in_map_iff in Hin as (m & Hid & Hm).
    apply filter_In in Hm as [_ Hm]. unfold has_text in *. rewrite Hid in Hm. congruence.
Qed.

End AnswerAll.

Lemma handleAutoAnswerAll_accepted_witness :
  Page.messages
    (result (Wire.serve (provider inbox) signed_in)
       (Page.handleAutoAnswerAll loaded_blank_draft) (tt, []))
  = filter (λ message, has_text (Page.replyDrafts loaded_blank_draft) message = false)
      (Page.messages loaded_blank_draft).
Proof.
  apply (handleAutoAnswerAll_accepted (Wire.serve (provider inbox) signed_in)
           loaded_blank_draft (tt, [])).
  vm_compute. repeat constructor.
Defined.

(** ** The page in front of the reply route *)

Section PageAndRoute.
Context {W : Type}.
Variable gmail : ∀ o : Gmail.Op, W → Gmail.Ar o * W.

(** What the page does with a response of the reply route that is a plain
    return, a refusal before any provider call. *)
Lemma handleSendReply_refused (session : option Session)
  (drafts : gmap jsstring jsstring) (message : GmailMessage) (st : Page.State)
  (w : W) (log : list Gmail.Op) (st_code : N) (why : jsstring) :
  truthy (drafts !! id message) = true →
  ReplyRoute.POST session (reply_request drafts message)
  = Ret (json_status (ErrorBody why) st_code) →
  Wire.ok (json_status (ErrorBody why) st_code) = false →
  let r := run (Wire.serve gmail session)
             (Page.handleSendReply drafts message st) (w, log) in
  Page.error r.1.1 = Some why
  ∧ Page.messages r.1.1 = Page.messages st
  ∧ Page.success r.1.1 = Page.success st
  ∧ r.2 = (w, log).
Proof.
  intros Hd Hpost Hok. unfold Page.handleSendReply. rewrite Hd.
  fold (reply_request drafts message).
  cbn [negb bind call run Wire.serve fst snd]. rewrite Hpost.
  cbn [run fst snd List.map body]. rewrite Hok, app_nil_r.
  cbn [negb Wire.error_of json_status body Page.r_ok Page.r_error nullish].
  done.
Qed.

(** X22. Without a session the page cannot send: the reply route refuses the
    request of [handleSendReply] before any provider call, and the page shows
    "Unauthorized", keeps the message and confirms nothing. *)
Theorem reply_without_session (session : option Session)
  (drafts : gmap jsstring jsstring) (message : GmailMessage) (st : Page.State)
  (w : W) (log : list Gmail.Op) :
  authenticated session = false →
  truthy (drafts !! id message) = true →
  let r := run (Wire.serve gmail session)
             (Page.handleSendReply drafts message st) (w, log) in
  Page.error r.1.1 = Some (lit "Unauthorized")
  ∧ Page.messages r.1.1 = Page.messages st
  ∧ Page.success r.1.1 = Page.success st
  ∧ r.2 = (w, log).
Proof.
  intros Hauth Hd.
  apply (handleSendReply_refused session drafts message st w log 401); [done| |done].
  by apply POST_unauthenticated.
Qed.

(** X23. A message cannot be answered from the page when it has no thread,
    an empty subject, an empty identifier or no recipient (the sender address
    is the empty string, or it is null and so is the raw header, or that is
    empty): the route refuses the request of [handleSendReply] as incomplete
    before any provider call, and the page shows "Missing required fields"
    and keeps the message. *)
Theorem reply_to_incomplete_message (session : option Session)
  (drafts : gmap jsstring jsstring) (message : GmailMessage) (st : Page.State)
  (w : W) (log : list Gmail.Op) :
  authenticated session = true →
  truthy (drafts !! id message) = true →
  truthy (threadId message) = false ∨ subject message = [] ∨ id message = []
  ∨ truthy (match fromAddress message with
            | Some a => Some a
            | None => from message
            end) = false →
  let r := run (Wire.serve gmail session)
             (Page.handleSendReply drafts message st) (w, log) in
  Page.error r.1.1 = Some (lit "Missing required fields")
  ∧ Page.messages r.1.1 = Page.messages st
  ∧ Page.success r.1.1 = Page.success st
  ∧ r.2 = (w, log).
Proof.
  intros Hauth Hd Hmissing.
  apply (handleSendReply_refused session drafts message st w log 400); [done| |done].
  destruct session as [s|]; [|done]. simpl in Hauth.
  unfold ReplyRoute.POST. rewrite Hauth. cbn [negb].
  assert (Hinc : ReplyRoute.incomplete (reply_request drafts message) = true).
  { unfold ReplyRoute.incomplete, reply_request.
    cbn [rp_messageId rp_threadId rp_to rp_subject rp_body].
    destruct Hmissing as [->|[->|[->| ->]]]; simpl; by rewrite ?orb_true_r. }
  by rewrite Hinc.
Qed.

End PageAndRoute.

Lemma reply_without_session_witness :
  let r := run (Wire.serve (provider inbox) None)
             (Page.handleSendReply (Page.replyDrafts loaded) message1 loaded) (tt, []) in
  Page.error r.1.1 = Some (lit "Unauthorized")
  ∧ Page.messages r.1.1 = Page.messages loaded
  ∧ Page.success r.1.1 = Page.success loaded
  ∧ r.2 = (tt, []).
Proof.
  apply (reply_without_session (provider inbox) None (Page.replyDrafts loaded)
           message1 loaded tt []).
  - reflexivity.
  - vm_compute. reflexivity.
Defined.

Lemma reply_to_incomplete_message_witness :
  let r := run (Wire.serve (provider inbox) signed_in)
             (Page.handleSendReply {[ lit "m5" := lit "Thanks" ]}
                message_without_subject loaded) (tt, []) in
  Page.error r.1.1 = Some (lit "Missing required fields")
  ∧ Page.messages r.1.1 = Page.messages loaded
  ∧ Page.success r.1.1 = Page.success loaded
  ∧ r.2 = (tt, []).
Proof.
  apply (reply_to_incomplete_message (provider inbox) signed_in
           {[ lit "m5" := lit "Thanks" ]} message_without_subject loaded tt []).
  - reflexivity.
  - vm_compute. reflexivity.
  - right. left. reflexivity.
Defined.

(** ** From the loaded list to answer-all *)

Lemma has_content (s : jsstring) (c : N) :
  c ∈ s → is_space c = false → trim s ≠ [].
Proof.
  intros Hin Hc Htrim.
  pose proof (trim_content s) as Hcontent. rewrite Htrim in Hcontent. simpl in Hcontent.
  assert (Hfilter : c ∈ List.filter (λ c, negb (is_space c)) s).
  { apply list_elem_of_In, filter_In. split; [by apply list_elem_of_In|by rewrite Hc]. }
  rewrite <- Hcontent in Hfilter. by apply elem_of_nil in Hfilter.
Qed.

(** The default reply is never blank. *)
Lemma defaultReply_has_text (message : GmailMessage) :
  trim (Page.defaultReply message) ≠ [].
Proof.
  apply (has_content _ 72); [|done].
  unfold Page.defaultReply, Page.QUICK_REPLIES. cbn [lookup list_lookup Page.t_body].
  unfold Page.acknowledge_body. change (lit "Hi ") with [72; 105; 32].
  apply list_elem_of_here.
Qed.

Section LoadedList.
Context {W : Type}.
Variable h : ∀ o : Page.Op, W → Page.Ar o * W.

(** X24. After a list of messages with distinct identifiers has been loaded,
    every message has a draft with text: answer-all then makes a reply request
    for every message of the list, in order, with the default reply of the
    message as body; and when the list is not empty and nothing is being sent,
    the answer-all button is enabled. *)
Theorem loaded_list_is_answerable (st : Page.State) (w w' : W)
  (payload : Page.MessagesResponse) :
  (h Page.FetchList w).1 = Resolved payload →
  Page.l_ok payload = true →
  NoDup (List.map id (Page.l_messages payload)) →
  let st' := result h (Page.handleRefresh true st) w in
  performed h (Page.handleAutoAnswerAll st') w'
  = List.map (λ message, Page.FetchReply (reply_request (Page.replyDrafts st') message))
      (Page.l_messages payload)
  ∧ (∀ message, message ∈ Page.l_messages payload →
       rp_body (reply_request (Page.replyDrafts st') message)
       = Some (Page.defaultReply message))
  ∧ (Page.l_messages payload ≠ [] → Page.sendingId st = None →
     Page.canSend st' = true ∧ Page.answer_all_disabled st' = false).
Proof.
  intros Hanswer Hok Hnodup st'.
  destruct (handleRefresh_run h st w payload Hanswer Hok Hnodup)
    as (Hmessages & Hdrafts & _ & _ & _ & Hsending & _).
  fold st' in Hmessages, Hdrafts, Hsending.
  assert (Htext : ∀ message, message ∈ Page.l_messages payload →
                             has_text (Page.replyDrafts st') message = true).
  { intros message Hin. unfold has_text. rewrite (Hdrafts message Hin). simpl.
    pose proof (defaultReply_has_text message).
    by destruct (trim (Page.defaultReply message)). }
  split; [|split].
  - unfold performed, events, Page.handleAutoAnswerAll.
    rewrite answer_each_requests, Hmessages. f_equal.
    clear -Htext. induction (Page.l_messages payload) as [|m l IH]; [done|].
    simpl. rewrite (Htext m) by apply list_elem_of_here.
    f_equal. apply IH. intros x Hx. apply Htext. by right.
  - intros message Hin. apply (Hdrafts message Hin).
  - intros Hne Hnone.
    assert (Hcan : Page.canSend st' = true).
    { destruct (Page.l_messages payload) as [|m l] eqn:Hl; [done|].
      unfold Page.canSend. apply existsb_exists.
      exists (id m, Page.defaultReply m). split.
      - apply list_elem_of_In, elem_of_map_to_list, Hdrafts, list_elem_of_here.
      - simpl. pose proof (defaultReply_has_text m).
        by destruct (trim (Page.defaultReply m)). }
    split; [done|]. unfold Page.answer_all_disabled.
    rewrite Hcan, Hsending, Hnone, Hmessages.
    by destruct (Page.l_messages payload).
Qed.

(** X25. The effect that loads the list writes nothing once it has been
    cancelled: of the page only the loading flag and the error, set before the
    request, differ from before, whatever the request brings. When it has not
    been cancelled it leaves the page as a refresh does (but for the wording of
    the error when what was thrown has no message). When the page is not
    configured or not authenticated it makes no request and empties the
    collection. *)
Theorem loadMessages_cancelled (authConfigured isAuthenticated : bool)
  (st : Page.State) (w : W) :
  result h (Page.loadMessages true true true st) w
  = Page.setError None (Page.setLoadingMessages true st)
  ∧ ((h Page.FetchList w).1 ≠ Rejected None →
     result h (Page.loadMessages true true false st) w
     = result h (Page.handleRefresh true st) w)
  ∧ (authConfigured && isAuthenticated = false →
     Page.loadMessages authConfigured isAuthenticated false st
     = Ret (Page.setMessages (λ _, []) st)).
Proof.
  split; [|split].
  - unfold result, Page.loadMessages. simpl.
    destruct (h Page.FetchList w) as [[payload|thrown] w1]; simpl; try done;
      by destruct (Page.l_ok payload).
  - unfold result, Page.loadMessages, Page.handleRefresh. simpl.
    destruct (h Page.FetchList w) as [[payload|[thrown|]] w1]; simpl; try done;
      by destruct (Page.l_ok payload).
  - unfold Page.loadMessages. by destruct authConfigured, isAuthenticated.
Qed.

End LoadedList.

Lemma loaded_list_is_answerable_witness :
  let serve := Wire.serve (provider inbox) signed_in in
  performed serve (Page.handleAutoAnswerAll (result serve (Page.handleRefresh true initial) (tt, [])))
    (tt, [])
  = List.map (λ message,
               Page.FetchReply
                 (reply_request
                    (Page.replyDrafts (result serve (Page.handleRefresh true initial) (tt, [])))
                    message))
      [message1; message2].
Proof.
  apply (loaded_list_is_answerable (Wire.serve (provider inbox) signed_in) initial
           (tt, []) (tt, []) (list_response (json (MessagesBody [message1; message2])))).
  - vm_compute. reflexivity.
  - reflexivity.
  - apply (bool_decide_unpack _). vm_compute. exact I.
Defined.

Lemma loadMessages_cancelled_witness :
  result (Wire.serve (provider inbox) signed_in) (Page.loadMessages true true false initial)
    (tt, [])
  = result (Wire.serve (provider inbox) signed_in) (Page.handleRefresh true initial) (tt, []).
Proof.
  apply (loadMessages_cancelled (Wire.serve (provider inbox) signed_in) true true
           initial (tt, [])).
  vm_compute. discriminate.
Defined.
